(** * Shallow embedding of the sample modules of [app/utils/sample]

  Each [Module] below embeds the functions of one source file that a
  stated property talks about.  Python [int] is [Z], [float] is the
  IEEE-754 binary64 type [float] of the standard library, [str] is
  [string], a [dict] with integer keys is a [gmap Z _].  Code that can
  raise returns a sum or a dedicated outcome type; code that reads or
  writes process state takes the state and returns the new one. *)

From Stdlib Require Import ZArith Floats String Ascii List Bool Lia.
From Stdlib Require Import Sorting.Sorted Sorting.Permutation.
From stdpp Require Import gmap strings list sorting.

Local Open Scope Z_scope.

(** ** The interpreter's primitives the samples call *)

Module Py.

(** An exception object: the names of its class and of the classes it
    derives from (its [__mro__], most specific first) and its message. *)
Record exn := mkExn { exn_mro : list string; exn_msg : string }.

(** [isinstance(e, cls)], which is what an [except cls] clause tests. *)
Definition isinstance (e : exn) (cls : string) : bool :=
  existsb (String.eqb cls) (exn_mro e).

Definition is_Exception (e : exn) : bool := isinstance e "Exception".

Definition exception_mro : list string := ["Exception"; "BaseException"; "object"]%string.

Definition ValueError (msg : string) : exn :=
  mkExn ("ValueError" :: exception_mro)%string msg.

Definition TypeError (msg : string) : exn :=
  mkExn ("TypeError" :: exception_mro)%string msg.

Definition RuntimeError (msg : string) : exn :=
  mkExn ("RuntimeError" :: exception_mro)%string msg.

Definition OverflowError (msg : string) : exn :=
  mkExn ("OverflowError" :: "ArithmeticError" :: exception_mro)%string msg.

Definition OSError_mro : list string := ("OSError" :: exception_mro)%string.


Definition PermissionError (msg : string) : exn :=
  mkExn ("PermissionError" :: OSError_mro)%string msg.

Definition IsADirectoryError (msg : string) : exn :=
  mkExn ("IsADirectoryError" :: OSError_mro)%string msg.


(** [KeyboardInterrupt] derives from [BaseException] only. *)
Definition KeyboardInterrupt : exn :=
  mkExn ["KeyboardInterrupt"; "BaseException"; "object"]%string ""%string.

(** What a call does: it returns a value or raises. *)
Inductive outcome (R : Type) : Type :=
| Return (r : R)
| Raise (e : exn).
Arguments Return {R} _.
Arguments Raise {R} _.

(** A value of the kinds the handlers put in their JSON answers. *)
Inductive value : Type :=
| VNone
| VInt (n : Z)
| VFloat (f : float)
| VStr (s : string).

(** A [dict] literal with string keys, in the order it is written. *)
Definition dict := list (string * value).

(** [raise o] where [o] is the value of a variable that holds an
    exception or [None]: raising [None] is a [TypeError]. *)
Definition raise_value (o : option exn) : exn :=
  match o with
  | Some e => e
  | None => TypeError "exceptions must derive from BaseException"
  end.

(** The error monad of code in which any call may raise; [x ← e; k] runs
    [e] and goes on with [k] unless [e] raised. *)
#[export] Instance outcome_ret : MRet outcome := fun _ v => Return v.

#[export] Instance outcome_bind : MBind outcome := fun _ _ k o =>
  match o with
  | Return v => k v
  | Raise e => Raise e
  end.

#[export] Instance outcome_fmap : FMap outcome := fun _ _ f o =>
  match o with
  | Return v => Return (f v)
  | Raise e => Raise e
  end.

(** *** Strings

    A [str] is modelled by a [string] whose characters are the code points
    below 256; the classification of characters is the interpreter's on
    that range. *)

Definition code (c : ascii) : N := N_of_ascii c.

Definition in_range (lo hi : N) (c : ascii) : bool :=
  ((lo <=? code c) && (code c <=? hi))%N.

(** [str.isspace] on one character: TAB..CR, the separators
    U+001C..U+001F, space, U+0085 and U+00A0. *)
Definition isspace (c : ascii) : bool :=
  in_range 9 13 c || in_range 28 32 c || (code c =? 133)%N || (code c =? 160)%N.

(** [str.isalnum] on one character: ASCII letters and digits, and in the
    Latin-1 range the letters and the numeric signs. *)
Definition isalnum (c : ascii) : bool :=
  in_range 48 57 c || in_range 65 90 c || in_range 97 122 c
  || (code c =? 170)%N || in_range 178 179 c || (code c =? 181)%N
  || in_range 185 186 c || in_range 188 190 c
  || in_range 192 214 c || in_range 216 246 c || in_range 248 255 c.

(** The value of an ASCII decimal digit. *)
Definition digit_of (c : ascii) : option Z :=
  if in_range 48 57 c then Some (Z.of_N (code c) - 48) else None.

Fixpoint lstrip_with (p : ascii -> bool) (s : string) : string :=
  match s with
  | EmptyString => EmptyString
  | String c r => if p c then lstrip_with p r else s
  end.

Fixpoint rstrip_with (p : ascii -> bool) (s : string) : string :=
  match s with
  | EmptyString => EmptyString
  | String c r =>
      match rstrip_with p r with
      | EmptyString => if p c then EmptyString else String c EmptyString
      | r' => String c r'
      end
  end.

(** [s.strip()] *)
Definition strip (s : string) : string :=
  rstrip_with isspace (lstrip_with isspace s).

(** [s.split(sep)] for a separator of one character. *)
Fixpoint split (sep : ascii) (s : string) : list string :=
  match s with
  | EmptyString => [EmptyString]
  | String c r =>
      if Ascii.eqb c sep then EmptyString :: split sep r
      else match split sep r with
           | [] => [String c EmptyString]
           | h :: t => String c h :: t
           end
  end.

(** Truth value of a [str] and of a [list]: non-empty. *)
Definition str_truthy (s : string) : bool :=
  match s with EmptyString => false | _ => true end.

Definition list_truthy {X : Type} (l : list X) : bool :=
  match l with [] => false | _ => true end.

(** The whitespace [int(s)] skips around the number: the ASCII characters
    TAB..CR and space, and the non-ASCII spaces (U+0085 and U+00A0 here),
    which it first turns into spaces.  U+001C..U+001F are not skipped. *)
Definition int_isspace (c : ascii) : bool :=
  in_range 9 13 c || (code c =? 32)%N || (code c =? 133)%N || (code c =? 160)%N.

(** The digits of [int(s)]: the scan reads digits, with single underscores
    between two digits only, up to the first other character or the end;
    it fails when it read no digit or stopped after an underscore.  [acc]
    is the value read so far, [count] the number of digits read so far,
    [prev_digit] says whether the previous character was a digit.  The
    result is the value, the number of digits and what was not read. *)
Fixpoint scan_digits (acc : Z) (count : N) (prev_digit : bool) (s : string)
    : option (Z * N * string) :=
  match s with
  | EmptyString => if prev_digit then Some (acc, count, s) else None
  | String c r =>
      match digit_of c with
      | Some d => scan_digits (10 * acc + d) (count + 1) true r
      | None =>
          if Ascii.eqb c "_" then
            if prev_digit then scan_digits acc count false r else None
          else if prev_digit then Some (acc, count, s) else None
      end
  end.

(** The optional sign in front of the digits. *)
Definition split_sign (body : string) : bool * string :=
  match body with
  | String "-" r => (true, r)
  | String "+" r => (false, r)
  | _ => (false, body)
  end.

(** The interpreter's limit on the number of digits of a decimal string,
    [sys.get_int_max_str_digits()]: 4300 unless set otherwise, 0 for no
    limit; it is looked at for more than 640 digits only. *)
Definition exceeds_limit (max_str_digits digits : N) : bool :=
  ((640 <? digits) && (0 <? max_str_digits) && (max_str_digits <? digits))%N.

Definition default_max_str_digits : N := 4300.

(** [int(s)] in base 10: optional whitespace, an optional sign, the
    digits, optional whitespace.  Too many digits are a [ValueError],
    raised as soon as the digits are read; anything that is not of this
    form is a [ValueError] as well.  The messages, which quote [s] and the
    numbers of digits, are shortened here. *)
Definition int (max_str_digits : N) (s : string) : outcome Z :=
  let body := rstrip_with int_isspace (lstrip_with int_isspace s) in
  let '(neg, ds) := split_sign body in
  match scan_digits 0 0 false ds with
  | None => Raise (ValueError "invalid literal for int() with base 10")
  | Some (v, count, rest) =>
      if exceeds_limit max_str_digits count then
        Raise (ValueError "Exceeds the limit for integer string conversion")
      else
        match rest with
        | EmptyString => Return (if neg then - v else v)
        | _ => Raise (ValueError "invalid literal for int() with base 10")
        end
  end.

(** [sum], [len], [min] and [max] on a list of integers; [min] and [max]
    of an empty list are a [ValueError]. *)
Definition sum (l : list Z) : Z := fold_left Z.add l 0.

Definition len {X : Type} (l : list X) : Z := Z.of_nat (length l).

Definition min (l : list Z) : outcome Z :=
  match l with
  | [] => Raise (ValueError "min() arg is an empty sequence")
  | n :: r => Return (fold_left Z.min r n)
  end.

Definition max (l : list Z) : outcome Z :=
  match l with
  | [] => Raise (ValueError "max() arg is an empty sequence")
  | n :: r => Return (fold_left Z.max r n)
  end.

(** [max(keys, default=d)]: the default is the answer for no keys. *)
Definition max_default (l : list Z) (default : Z) : Z :=
  match l with
  | [] => default
  | n :: r => fold_left Z.max r n
  end.

(** [sorted(data, reverse=...)] on integers.  The interpreter sorts with a
    stable merge sort and gets the descending order by reversing the list
    before and after an ascending sort. *)
Definition sorted (data : list Z) (reverse : bool) : list Z :=
  if reverse then List.rev (merge_sort Z.le (List.rev data))
  else merge_sort Z.le data.

End Py.

(** ** decorators.py *)

Module Decorators.
Import Py.

Section Retry.

(** [W] is the state of the world the decorated function reads and writes
    (a flaky function does not answer the same way twice), [A] its
    arguments ([*args, **kwargs]), [R] its result. *)
Context {W A R : Type}.

Definition callable : Type := A -> W -> outcome R * W.

(** What the wrapper does besides returning: each call of [func], each
    line it prints ([Attempt {attempt}/{times} failed: {e}]) and each
    [time.sleep(delay)]. *)
Inductive event : Type :=
| EvCall
| EvPrint (attempt times : Z) (e : exn)
| EvSleep (delay : float).

(** What the two calls inside the [except] block do in a run, for each
    attempt: whether printing the line raises (the [str] of the exception
    or the write to the standard output can), and whether
    [time.sleep(delay)] raises (it does for a negative or NaN delay, or
    one too long for the clock). *)
Record handler_io := mkHandlerIo {
  print_raises : Z -> option exn;
  sleep_raises : Z -> option exn
}.

(** The [for attempt in range(1, times + 1)] loop of [wrapper], with [n]
    attempts left, then [raise last_exc].  An exception that is not an
    [Exception] passes the [except] clause; an exception raised inside
    the handler, by [print] or by [time.sleep], leaves the loop. *)
Fixpoint retry_loop (io : handler_io) (func : callable) (times : Z)
    (delay : float) (args : A)
    (n : nat) (attempt : Z) (last_exc : option exn) (w : W)
    : outcome R * W * list event :=
  match n with
  | O => (Raise (raise_value last_exc), w, [])
  | S n' =>
      match func args w with
      | (Return r, w') => (Return r, w', [EvCall])
      | (Raise e, w') =>
          if is_Exception e then
            match print_raises io attempt with
            | Some pe => (Raise pe, w', [EvCall; EvPrint attempt times e])
            | None =>
                match sleep_raises io attempt with
                | Some se =>
                    (Raise se, w', [EvCall; EvPrint attempt times e; EvSleep delay])
                | None =>
                    let '(o, w'', tr) :=
                      retry_loop io func times delay args n' (attempt + 1) (Some e) w' in
                    (o, w'', EvCall :: EvPrint attempt times e :: EvSleep delay :: tr)
                end
            end
          else (Raise e, w', [EvCall])
      end
  end.

(** [retry(times, delay)(func)], the [wrapper]: [range(1, times + 1)] has
    [max(0, times)] elements. *)
Definition retry (io : handler_io) (times : Z) (delay : float) (func : callable)
    : A -> W -> outcome R * W * list event :=
  fun args w => retry_loop io func times delay args (Z.to_nat times) 1 None w.

End Retry.
End Decorators.

(** ** oop.py *)

Module Oop.

(** The two arithmetic operators [Vec2] relies on, [+] and [*] of the
    component type. *)
Class PyNumber (T : Type) := { num_add : T -> T -> T; num_mul : T -> T -> T }.

#[export] Instance float_number : PyNumber float :=
  {| num_add := PrimFloat.add; num_mul := PrimFloat.mul |}.

#[export] Instance int_number : PyNumber Z :=
  {| num_add := Z.add; num_mul := Z.mul |}.

(** [class Vec2]: [__init__] stores the two components. *)
Record Vec2 (T : Type) := mkVec2 { x : T; y : T }.
Arguments mkVec2 {T} _ _.
Arguments x {T} _.
Arguments y {T} _.

(** [Vec2.__add__] *)
Definition add {T} `{PyNumber T} (self other : Vec2 T) : Vec2 T :=
  mkVec2 (num_add (x self) (x other)) (num_add (y self) (y other)).

(** [Vec2.__mul__] *)
Definition mul {T} `{PyNumber T} (self : Vec2 T) (scalar : T) : Vec2 T :=
  mkVec2 (num_mul (x self) scalar) (num_mul (y self) scalar).

End Oop.

(** ** builtin_functions.py *)

Module BuiltinFunctions.
Import Py.

(** The list of [sequence_helpers]. *)
Definition data : list Z := [3; 1; 4; 1; 5].

(** What [sequence_helpers] prints after ["sorted desc"]; the call is made
    on any list the same way. *)
Definition sorted_desc (l : list Z) : list Z := sorted l true.

End BuiltinFunctions.

(** ** regex.py *)

Module Regex.
Import Py.

(** The items of a character class: [\w] or one literal character. *)
Inductive class_item : Type :=
| CWord
| CChar (c : ascii).

(** A bracketed class, [[...]] or [[^...]]. *)
Record char_class := mkClass { negated : bool; items : list class_item }.

(** [\w] on a [str] pattern: alphanumeric or the underscore. *)
Definition is_word (c : ascii) : bool := isalnum c || Ascii.eqb c "_".

Definition item_matches (it : class_item) (c : ascii) : bool :=
  match it with
  | CWord => is_word c
  | CChar d => Ascii.eqb c d
  end.

Definition class_matches (cls : char_class) (c : ascii) : bool :=
  xorb (negated cls) (existsb (fun it => item_matches it c) (items cls)).

(** [re.sub(pattern, repl, s)] for a pattern that is one character class
    and a replacement without escapes: left to right, every character the
    class matches is replaced by [repl], every other one is copied. *)
Fixpoint re_sub_class (cls : char_class) (repl : string) (s : string) : string :=
  match s with
  | EmptyString => EmptyString
  | String c r =>
      ((if class_matches cls c then repl else String c EmptyString)
         ++ re_sub_class cls repl r)%string
  end.

(** The pattern [[^\w.@+-]] of [split_and_sub_examples]; the final [-] of
    a class is a literal. *)
Definition sanitizer_class : char_class :=
  mkClass true [CWord; CChar "."; CChar "@"; CChar "+"; CChar "-"].

(** [re.sub(r"[^\w.@+-]", "-", s)] *)
Definition sanitize (s : string) : string := re_sub_class sanitizer_class "-" s.

(** The value [split_and_sub_examples] prints. *)
Definition cleaned : string := sanitize "user+tag@example.com".

(** *** Scanning for the runs of a class

    The patterns [\d+] and [[,;\s]+] match the maximal runs of the
    characters of one class, from left to right and without overlap. *)

(** [\d] on a [str] pattern: a decimal digit, which below 256 is one of
    [0]..[9]. *)
Definition is_digit (c : ascii) : bool := in_range 48 57 c.

(** The class [[,;\s]]; [\s] is [str.isspace] on one character. *)
Definition is_separator (c : ascii) : bool :=
  Ascii.eqb c "," || Ascii.eqb c ";" || isspace c.

(** The run of the class that [s] starts with, and the runs after it. *)
Fixpoint scan_runs (cls : ascii -> bool) (s : string) : string * list string :=
  match s with
  | EmptyString => (EmptyString, [])
  | String c r =>
      let '(run, later) := scan_runs cls r in
      if cls c then (String c run, later)
      else (EmptyString, match run with EmptyString => later | _ => run :: later end)
  end.

(** [re.findall(pattern, s)] for a pattern [cls+]. *)
Definition findall_plus (cls : ascii -> bool) (s : string) : list string :=
  let '(run, later) := scan_runs cls s in
  match run with EmptyString => later | _ => run :: later end.

Definition starts_with (cls : ascii -> bool) (s : string) : bool :=
  match s with
  | EmptyString => false
  | String c _ => cls c
  end.

(** The part of [s] before its first run of separators, and the parts
    after that run. *)
Fixpoint split_scan (cls : ascii -> bool) (s : string) : string * list string :=
  match s with
  | EmptyString => (EmptyString, [])
  | String c r =>
      let '(part, later) := split_scan cls r in
      if cls c then
        (EmptyString, if starts_with cls r then later else part :: later)
      else (String c part, later)
  end.

(** [re.split(pattern, s)] for a pattern [cls+]. *)
Definition split_plus (cls : ascii -> bool) (s : string) : list string :=
  let '(part, later) := split_scan cls s in part :: later.

(** [re.findall(r"\d+", text)] of [basic_examples]. *)
Definition find_numbers (text : string) : list string := findall_plus is_digit text.

(** [re.split(r"[,;\s]+", text)] of [split_and_sub_examples]. *)
Definition split_parts (text : string) : list string := split_plus is_separator text.

(** *** Matching a sequence of quantified classes

    A pattern such as the one of [email_validator] is a sequence of
    pieces, each a class with a count. *)
Inductive piece : Type :=
| Exactly (cls : ascii -> bool) (n : nat)
| AtLeast (cls : ascii -> bool) (n : nat).

(** [cls*] followed by what [k] accepts. *)
Fixpoint star (cls : ascii -> bool) (k : string -> bool) (s : string) : bool :=
  k s ||
  match s with
  | EmptyString => false
  | String c r => cls c && star cls k r
  end.

(** [cls{n}] followed by what [k] accepts. *)
Fixpoint exactly (cls : ascii -> bool) (n : nat) (k : string -> bool) (s : string)
    : bool :=
  match n with
  | O => k s
  | S m =>
      match s with
      | EmptyString => false
      | String c r => cls c && exactly cls m k r
      end
  end.

(** The pieces in sequence, followed by what [k] accepts. *)
Fixpoint match_pieces (ps : list piece) (k : string -> bool) : string -> bool :=
  match ps with
  | [] => k
  | Exactly cls n :: r => exactly cls n (match_pieces r k)
  | AtLeast cls n :: r => exactly cls n (star cls (match_pieces r k))
  end.

(** [$] without the multi-line flag: the end of the string, or just
    before a line feed that ends the string. *)
Definition at_end (s : string) : bool :=
  match s with
  | EmptyString => true
  | String c EmptyString => Ascii.eqb c "010"
  | _ => false
  end.

Definition is_ascii_alpha (c : ascii) : bool := in_range 65 90 c || in_range 97 122 c.

Definition is_ascii_alnum (c : ascii) : bool := is_ascii_alpha c || in_range 48 57 c.

(** [[A-Za-z0-9._%+-]] *)
Definition local_class (c : ascii) : bool :=
  is_ascii_alnum c || Ascii.eqb c "." || Ascii.eqb c "_" || Ascii.eqb c "%"
  || Ascii.eqb c "+" || Ascii.eqb c "-".

(** [[A-Za-z0-9.-]] *)
Definition domain_class (c : ascii) : bool :=
  is_ascii_alnum c || Ascii.eqb c "." || Ascii.eqb c "-".

(** [^[A-Za-z0-9._%+-]+@[A-Za-z0-9.-]+\.[A-Za-z]{2,}$] *)
Definition email_pattern : list piece :=
  [AtLeast local_class 1; Exactly (Ascii.eqb "@") 1; AtLeast domain_class 1;
   Exactly (Ascii.eqb ".") 1; AtLeast is_ascii_alpha 2].

(** [email_validator]: [bool(pattern.match(candidate))]. *)
Definition email_validator (candidate : string) : bool :=
  match_pieces email_pattern at_end candidate.

End Regex.

(** ** files.py *)

Module Files.
Import Py.

(** What opening a path for reading and then reading it as UTF-8 text
    does: the [open] raises (a missing file is a [FileNotFoundError], a
    path below a regular file a [NotADirectoryError], and so on), or the
    file is opened and reading it raises (bytes that are not UTF-8), or
    reading returns the text of the file, decoded and with its line ends
    translated. *)
Inductive path_status : Type :=
| CannotOpen (e : exn)
| CannotRead (e : exn)
| Readable (text : string).

(** The file system as the program meets it: the status of every path. *)
Abbreviation filesystem := (string -> path_status).

(** [path.read_text(encoding="utf-8")] *)
Definition read_text (fs : filesystem) (path : string) : outcome string :=
  match fs path with
  | CannotOpen e => Raise e
  | CannotRead e => Raise e
  | Readable text => Return text
  end.


End Files.

(** ** fastapi.py *)

Module Fastapi.
Import Py.

(** [@dataclass class Item] *)
Record Item := mkItem { id : Z; name : string; price : float }.

(** [dataclasses.asdict] on an [Item]: its fields in declaration order. *)
Definition asdict (item : Item) : dict :=
  [("id", VInt (id item)); ("name", VStr (name item)); ("price", VFloat (price item))]%string.

(** The state of the module-level dictionary. *)
Abbreviation db := (gmap Z Item).

(** [IN_MEMORY_DB] as the module defines it. *)
Definition IN_MEMORY_DB : db := {[ 1 := mkItem 1 "apple" 0.5 ]}.

(** [fastapi.HTTPException] *)
Record HTTPException := mkHTTPException { status_code : Z; detail : string }.

(** What a handler over the dictionary does: it answers or raises an
    [HTTPException]. *)
Inductive response (X : Type) : Type :=
| Ok (body : X)
| HTTPError (e : HTTPException).
Arguments Ok {X} _.
Arguments HTTPError {X} _.

Definition get_item_or_404 (d : db) (item_id : Z) : response Item :=
  match d !! item_id with
  | None => HTTPError (mkHTTPException 404 "Item not found")
  | Some item => Ok item
  end.

(** [GET /item/{item_id}]: the answer and the dictionary afterwards. *)
Definition read_item (d : db) (item_id : Z) : response dict * db :=
  match get_item_or_404 d item_id with
  | HTTPError e => (HTTPError e, d)
  | Ok item => (Ok (asdict item), d)
  end.

(** [IN_MEMORY_DB.keys()] *)
Definition keys (d : db) : list Z := (map_to_list d).*1.

(** [POST /item]: the answer and the dictionary afterwards. *)
Definition create_item (d : db) (name : string) (price : float) : dict * db :=
  let new_id := max_default (keys d) 0 + 1 in
  let item := mkItem new_id name price in
  (asdict item, <[new_id := item]> d).

(** The list comprehension of [builtin_stats],
    [[int(x) for x in xs if x.strip()]]; [max_str_digits] is the
    interpreter's digit limit [int] works under. *)
Fixpoint int_of_nonblank (max_str_digits : N) (xs : list string)
    : outcome (list Z) :=
  match xs with
  | [] => Return []
  | x :: r =>
      if str_truthy (strip x) then
        n ← int max_str_digits x;
        ns ← int_of_nonblank max_str_digits r;
        Return (n :: ns)
      else int_of_nonblank max_str_digits r
  end.

(** [GET /builtins/stats] *)
Definition builtin_stats (max_str_digits : N) (values : string) : outcome dict :=
  nums ← int_of_nonblank max_str_digits (split "," values);
  lo ← (if list_truthy nums then VInt <$> min nums else Return VNone);
  hi ← (if list_truthy nums then VInt <$> max nums else Return VNone);
  Return [("count", VInt (len nums)); ("sum", VInt (sum nums));
          ("min", lo); ("max", hi)]%string.

(** *** The websocket echo loop

    The handler is run against a script of what the connection does: one
    entry per turn of the loop, saying what [receive_text] does and, when
    it returns a text, whether [send_text] raises. *)
Inductive turn : Type :=
| RecvRaises (e : exn)
| Recv (data : string) (send_raises : option exn).

(** The calls the handler makes on the websocket.  [WsReceived] records
    the text a [receive_text] call returned; [WsSendText text sent]
    records the call [send_text(text)] and whether it sent the text or
    raised. *)
Inductive ws_event : Type :=
| WsAccept
| WsReceived (data : string)
| WsSendText (text : string) (sent : bool)
| WsClose.

(** How far the handler got: still waiting in [receive_text] (the script
    is over), finished through the [except] clause, or left by an
    exception. *)
Inductive ws_status : Type :=
| Waiting
| Closed
| Propagated (e : exn).

(** [except Exception: await ws.close()]; an exception of [close] leaves
    the handler. *)
Definition ws_except (close_raises : option exn) (e : exn)
    : list ws_event * ws_status :=
  if is_Exception e then
    ([WsClose], match close_raises with Some ce => Propagated ce | None => Closed end)
  else ([], Propagated e).

(** The [while True] loop inside the [try]. *)
Fixpoint echo_loop (close_raises : option exn) (script : list turn)
    : list ws_event * ws_status :=
  match script with
  | [] => ([], Waiting)
  | RecvRaises e :: _ => ws_except close_raises e
  | Recv data send_raises :: rest =>
      let reply := ("echo: " ++ data)%string in
      match send_raises with
      | Some e =>
          let '(tr, st) := ws_except close_raises e in
          (WsReceived data :: WsSendText reply false :: tr, st)
      | None =>
          let '(tr, st) := echo_loop close_raises rest in
          (WsReceived data :: WsSendText reply true :: tr, st)
      end
  end.

(** [WS /ws/echo]: [ws.accept()] is awaited outside the [try], so an
    exception it raises leaves the handler. *)
Definition ws_echo (accept_raises close_raises : option exn) (script : list turn)
    : list ws_event * ws_status :=
  match accept_raises with
  | Some e => ([WsAccept], Propagated e)
  | None =>
      let '(tr, st) := echo_loop close_raises script in (WsAccept :: tr, st)
  end.

(** [GET /regex/find_numbers]: the list under ["numbers"] in the answer. *)
Definition regex_numbers (text : string) : list string :=
  Regex.findall_plus Regex.is_digit text.

(** *** [simple_cache] *)

Section SimpleCache.

(** [A] is the type of the positional arguments, [X] of the values of the
    keyword arguments, both hashable; [V] is the type of results and [W]
    the state the decorated function reads and writes. *)
Context {A X V W : Type} `{Countable A, Countable X}.

(** [tuple(sorted(kwargs.items()))]: the names of keyword arguments are
    distinct, so the order of two items is the order of their names. *)
Definition sorted_items (kwargs : list (string * X)) : list (string * X) :=
  merge_sort (fun a b => String.le a.1 b.1) kwargs.

Definition cache_key (args : A) (kwargs : list (string * X))
    : A * list (string * X) :=
  (args, sorted_items kwargs).

(** What the wrapper does besides answering: it calls [func] or logs
    ["cache hit"]. *)
Inductive cache_event : Type :=
| CacheCall (args : A) (kwargs : list (string * X))
| CacheHit.

(** The [wrapper] of [simple_cache(func)], with the dictionary [cache] of
    its closure passed in and out. *)
Definition simple_cache
    (func : A -> list (string * X) -> W -> outcome V * W)
    (args : A) (kwargs : list (string * X))
    (cache : gmap (A * list (string * X)) V) (w : W)
    : outcome V * gmap (A * list (string * X)) V * W * list cache_event :=
  let key := cache_key args kwargs in
  match cache !! key with
  | Some val => (Return val, cache, w, [CacheHit])
  | None =>
      match func args kwargs w with
      | (Return val, w') =>
          (Return val, <[key := val]> cache, w', [CacheCall args kwargs])
      | (Raise e, w') => (Raise e, cache, w', [CacheCall args kwargs])
      end
  end.

End SimpleCache.

End Fastapi.

(** ** Vocabulary of the statements *)

Module Requests.
Import Py Fastapi.

(** A call of one of the two handlers over [IN_MEMORY_DB]. *)
Inductive request : Type :=
| ReadItem (item_id : Z)
| CreateItem (name : string) (price : float).

(** The dictionary after the call. *)
Definition handle (d : db) (r : request) : db :=
  match r with
  | ReadItem item_id => snd (read_item d item_id)
  | CreateItem name price => snd (create_item d name price)
  end.

(** The dictionary after a sequence of calls, the first one first. *)
Definition run (rs : list request) (d : db) : db := fold_left handle rs d.

(** Every stored item carries the key it is stored under. *)
Definition keyed_by_id (d : db) : Prop :=
  forall k item, d !! k = Some item -> id item = k.

End Requests.

Module RetrySpec.
Import Py Decorators.

Section Calls.
Context {W A R : Type}.
Implicit Types (func : @callable W A R) (args : A) (w : W).

(** The state in which the call number [k] (from 0) starts when [func]
    is called on [args] again and again, each call in the state the
    previous one left. *)
Fixpoint state_before func args (k : nat) w : W :=
  match k with
  | O => w
  | S k' => state_before func args k' (snd (func args w))
  end.

(** What the call number [k] does. *)
Definition nth_call func args (k : nat) w : outcome R * W :=
  func args (state_before func args k w).

Definition raises (o : outcome R) : Prop := exists e, o = Raise e.

(** The call raises an exception the [except Exception] clause catches. *)
Definition raises_Exception (o : outcome R) : bool :=
  match o with
  | Raise e => is_Exception e
  | Return _ => false
  end.

(** The number of calls of [func] in a trace of the wrapper. *)
Fixpoint calls (tr : list (@event)) : nat :=
  match tr with
  | [] => O
  | EvCall :: r => S (calls r)
  | _ :: r => calls r
  end.

Definition result_of (x : outcome R * W * list event) : outcome R := fst (fst x).
Definition state_of (x : outcome R * W * list event) : W := snd (fst x).
Definition trace_of (x : outcome R * W * list event) : list event := snd x.

(** The property of the wrapper as first stated: at most [times] calls;
    the result of the first call that does not raise is returned, and
    that call is the last one; when all [times] calls raise, the
    exception of the last one is raised. *)
Definition retry_as_stated (io : handler_io) (times : Z) (delay : float)
    func args w : Prop :=
  let run := retry io times delay func args w in
  Z.of_nat (calls (trace_of run)) <= times /\
  (forall (k : nat) (r : R),
      Z.of_nat k < times ->
      (forall j, (j < k)%nat -> raises (fst (nth_call func args j w))) ->
      fst (nth_call func args k w) = Return r ->
      result_of run = Return r /\ calls (trace_of run) = S k) /\
  ((forall j, Z.of_nat j < times -> raises (fst (nth_call func args j w))) ->
   exists e, fst (nth_call func args (Z.to_nat times - 1) w) = Raise e /\
             result_of run = Raise e /\
             Z.of_nat (calls (trace_of run)) = times).

End Calls.

(** Three runs of the handler: one in which [print] and [time.sleep]
    return, one in which [time.sleep] raises as it does for a negative
    delay, and one in which printing the line raises as it does when the
    standard output is closed. *)
Definition quiet_io : handler_io :=
  mkHandlerIo (fun _ => None) (fun _ => None).

Definition sleep_rejects_io : handler_io :=
  mkHandlerIo (fun _ => None)
    (fun _ => Some (ValueError "sleep length must be non-negative")).

Definition print_fails_io : handler_io :=
  mkHandlerIo (fun _ => Some (ValueError "I/O operation on closed file."))
    (fun _ => None).

(** Three functions over a call counter: one is interrupted on its first
    call and would answer 7 on the next, one fails on its first call with
    a [RuntimeError] and answers 7 on the next, one always fails. *)
Definition interrupted_once : @callable nat unit Z := fun _ n =>
  match n with
  | O => (Raise KeyboardInterrupt, S n)
  | _ => (Return 7, S n)
  end.

Definition fails_once : @callable nat unit Z := fun _ n =>
  match n with
  | O => (Raise (RuntimeError "flaky failure"), S n)
  | _ => (Return 7, S n)
  end.

Definition always_fails : @callable nat unit Z := fun _ n =>
  (Raise (RuntimeError "flaky failure"), S n).

End RetrySpec.

Module Vec2Statement.
Import Oop.



End Vec2Statement.

Module Statements.
Import Py Regex Files Fastapi.


(** The allowed set of the pattern: word characters and [. @ + -]. *)
Definition allowed (c : ascii) : bool :=
  is_word c || Ascii.eqb c "." || Ascii.eqb c "@" || Ascii.eqb c "+"
  || Ascii.eqb c "-".




(** The texts [receive_text] returned, the texts [send_text] was called
    with, and the texts it sent, in the order of the trace. *)
Fixpoint received (tr : list ws_event) : list string :=
  match tr with
  | [] => []
  | WsReceived data :: r => data :: received r
  | _ :: r => received r
  end.

Fixpoint send_calls (tr : list ws_event) : list string :=
  match tr with
  | [] => []
  | WsSendText text _ :: r => text :: send_calls r
  | _ :: r => send_calls r
  end.

Fixpoint replies (tr : list ws_event) : list string :=
  match tr with
  | [] => []
  | WsSendText text true :: r => text :: replies r
  | _ :: r => replies r
  end.

(** The texts the connection hands to a handler that keeps receiving: the
    turns of the script up to the first call that raises. *)
Fixpoint delivered (script : list turn) : list string :=
  match script with
  | [] => []
  | RecvRaises _ :: _ => []
  | Recv data None :: rest => data :: delivered rest
  | Recv data (Some _) :: _ => [data]
  end.

(** Those of them whose reply the connection takes. *)
Fixpoint answered (script : list turn) : list string :=
  match script with
  | [] => []
  | RecvRaises _ :: _ => []
  | Recv data None :: rest => data :: answered rest
  | Recv _ (Some _) :: _ => []
  end.

(** The first exception [receive_text] or [send_text] raises. *)
Fixpoint first_failure (script : list turn) : option exn :=
  match script with
  | [] => None
  | RecvRaises e :: _ => Some e
  | Recv _ None :: rest => first_failure rest
  | Recv _ (Some e) :: _ => Some e
  end.

(** How a loop that met the exception [e] ends. *)
Definition ends_after (close_raises : option exn) (e : exn)
    (tr : list ws_event) (st : ws_status) : Prop :=
  if is_Exception e then
    (exists tr0, tr = tr0 ++ [WsClose] /\ WsClose ∉ tr0) /\
    st = match close_raises with Some ce => Propagated ce | None => Closed end
  else (WsClose ∉ tr) /\ st = Propagated e.

Definition echo (data : string) : string := ("echo: " ++ data)%string.

(** The property of [ws_echo] as first stated: every text received is
    answered by exactly one reply, its echo, in the order of reception. *)
Definition ws_echo_as_stated (accept_raises close_raises : option exn)
    (script : list turn) : Prop :=
  accept_raises = None ->
  replies (fst (ws_echo accept_raises close_raises script))
  = map echo (delivered script).

(** *** The input of [builtin_stats] *)

(** Every character of [s] satisfies [p]. *)
Fixpoint all_chars (p : ascii -> bool) (s : string) : bool :=
  match s with
  | EmptyString => true
  | String c r => p c && all_chars p r
  end.

(** A blank segment holds whitespace only. *)
Definition blank (seg : string) : bool := all_chars isspace seg.

Definition comma_free (seg : string) : bool :=
  all_chars (fun c => negb (Ascii.eqb c ",")) seg.

(** [segs] are the comma-separated segments of [values]. *)
Definition segments_of (values : string) (segs : list string) : Prop :=
  segs <> [] /\
  Forall (fun seg => comma_free seg = true) segs /\
  values = String.concat "," segs.

(** A run of decimal digits, single underscores allowed between two
    digits, with the digits' values. *)
Inductive Digits : string -> list Z -> Prop :=
| digits_one c d :
    digit_of c = Some d -> Digits (String c EmptyString) [d]
| digits_more c d s ds :
    digit_of c = Some d -> Digits s ds -> Digits (String c s) (d :: ds)
| digits_under c d s ds :
    digit_of c = Some d -> Digits s ds ->
    Digits (String c (String "_" s)) (d :: ds).

(** The number a list of decimal digits denotes. *)
Definition decimal_value (ds : list Z) : Z :=
  fold_left (fun a d => 10 * a + d) ds 0.

(** A decimal integer literal, with an optional sign, and its value. *)
Inductive Literal : string -> Z -> Prop :=
| literal_unsigned s ds : Digits s ds -> Literal s (decimal_value ds)
| literal_plus s ds : Digits s ds -> Literal (String "+" s) (decimal_value ds)
| literal_minus s ds : Digits s ds -> Literal (String "-" s) (- decimal_value ds).

(** A literal with characters of [space] around it. *)
Definition spaced_literal (space : ascii -> bool) (seg : string) (n : Z) : Prop :=
  exists l body r,
    seg = (l ++ body ++ r)%string /\
    all_chars space l = true /\
    all_chars space r = true /\
    Literal body n.

(** A segment that is a decimal integer literal with whitespace around
    it.  The whitespace is TAB, LF, VT, FF, CR, the space and the
    non-ASCII spaces; the separators U+001C..U+001F, which [int] does not
    skip, are not counted as such. *)
Definition integer_segment (seg : string) (n : Z) : Prop :=
  spaced_literal int_isspace seg n.

(** The segments that are not blank. *)
Definition nonblank_segments (segs : list string) : list string :=
  List.filter (fun seg => negb (blank seg)) segs.

(** The number of decimal digits in a string. *)
Fixpoint digit_count (s : string) : N :=
  match s with
  | EmptyString => 0
  | String c r =>
      ((match digit_of c with Some _ => 1 | None => 0 end) + digit_count r)%N
  end.

(** The two errors of [int]. *)
Definition int_error (e : exn) : Prop :=
  e = ValueError "invalid literal for int() with base 10"%string \/
  e = ValueError "Exceeds the limit for integer string conversion"%string.

(** The statistics of a list of numbers, as [builtin_stats] is to give
    them. *)
Definition stats_of (nums : list Z) (d : dict) : Prop :=
  exists lo hi : value,
    d = [("count", VInt (Z.of_nat (length nums)));
         ("sum", VInt (foldr Z.add 0 nums)); ("min", lo); ("max", hi)]%string /\
    (nums = [] -> lo = VNone /\ hi = VNone) /\
    (nums <> [] ->
       exists a b : Z,
         lo = VInt a /\ hi = VInt b /\ a ∈ nums /\ b ∈ nums /\
         forall n, n ∈ nums -> a <= n <= b).

(** The property of [builtin_stats] as first stated: whenever the
    non-blank segments are decimal integer literals with whitespace
    (what [str.isspace] says) around them, the statistics of their values
    are returned. *)
Definition builtin_stats_as_stated (max_str_digits : N) (values : string) : Prop :=
  forall (segs : list string) (nums : list Z),
    segments_of values segs ->
    Forall2 (spaced_literal isspace) (nonblank_segments segs) nums ->
    exists d, builtin_stats max_str_digits values = Return d /\ stats_of nums d.

(** The string of [n] characters [c]. *)
Fixpoint replicate_char (n : nat) (c : ascii) : string :=
  match n with
  | O => EmptyString
  | S m => String c (replicate_char m c)
  end.

End Statements.

(** ** data_types.py *)

Module DataTypes.

(** [first_even]: the loop returns at the first [n] with [n % 2 == 0]. *)
Fixpoint first_even (nums : list Z) : option Z :=
  match nums with
  | [] => None
  | n :: r => if n mod 2 =? 0 then Some n else first_even r
  end.

End DataTypes.

(** ** context_manager.py *)

Module ContextManager.
Import Py Files.

(** What happens to the file, and when the body of the [with] runs. *)
Inductive io_event : Type :=
| IoOpen (path : string)
| IoBody
| IoClose (path : string).

(** [open(path, "r", encoding="utf-8")]: the exception, if any. *)
Definition open_for_reading (fs : filesystem) (path : string) : option exn :=
  match fs path with
  | CannotOpen e => Some e
  | _ => None
  end.

(** [f.read()] on a file opened that way. *)
Definition file_read (fs : filesystem) (path : string) : outcome string :=
  match fs path with
  | Readable text => Return text
  | CannotRead e => Raise e
  | CannotOpen e => Raise e
  end.

(** [with open_read(path) as content: body(content)].  The generator
    opens the file, reads it inside the [try] and yields the text; the
    [finally] closes the file when the body is over, and also when
    [f.read()] raises.  An exception of the body is thrown into the
    generator and comes out of it again, so it is not suppressed. *)
Definition with_open_read {W R : Type} (fs : filesystem) (path : string)
    (body : string -> W -> outcome R * W) (w : W)
    : outcome R * W * list io_event :=
  match open_for_reading fs path with
  | Some e => (Raise e, w, [])
  | None =>
      match file_read fs path with
      | Raise e => (Raise e, w, [IoOpen path; IoClose path])
      | Return content =>
          let '(o, w') := body content w in
          (o, w', [IoOpen path; IoBody; IoClose path])
      end
  end.

End ContextManager.

Module MoreStatements.
Import Py Decorators Regex Fastapi ContextManager Requests.

(** The text made of gaps and runs in turn, a gap first and last. *)
Fixpoint weave (gaps runs : list string) : string :=
  match gaps, runs with
  | g :: gs, r :: rs => (g ++ r ++ weave gs rs)%string
  | g :: _, [] => g
  | [], _ => EmptyString
  end.

(** The number of [time.sleep] calls in a trace of the [retry] wrapper. *)
Fixpoint sleeps (tr : list event) : nat :=
  match tr with
  | [] => O
  | EvSleep _ :: r => S (sleeps r)
  | _ :: r => sleeps r
  end.


(** The number of occurrences of a character in a string. *)
Fixpoint count_char (c : ascii) (s : string) : nat :=
  match s with
  | EmptyString => O
  | String d r => (if Ascii.eqb d c then 1 else 0) + count_char c r
  end.

(** The numbers of [open] and [close] events in a trace. *)
Fixpoint opened (tr : list io_event) : nat :=
  match tr with
  | [] => O
  | IoOpen _ :: r => S (opened r)
  | _ :: r => opened r
  end.

Fixpoint closed (tr : list io_event) : nat :=
  match tr with
  | [] => O
  | IoClose _ :: r => S (closed r)
  | _ :: r => closed r
  end.

Section CacheRuns.
Context {A X V W : Type} `{Countable A, Countable X}.

(** The cache and the state after a sequence of calls of the wrapper. *)
Fixpoint cache_after
    (func : A -> list (string * X) -> W -> outcome V * W)
    (calls : list (A * list (string * X)))
    (cache : gmap (A * list (string * X)) V) (w : W)
    : gmap (A * list (string * X)) V * W :=
  match calls with
  | [] => (cache, w)
  | (args, kwargs) :: r =>
      let '(_, cache', w', _) := simple_cache func args kwargs cache w in
      cache_after func r cache' w'
  end.

End CacheRuns.


(** A function that answers how often it was called before. *)
Definition call_counter : Z -> list (string * Z) -> nat -> outcome Z * nat :=
  fun _ _ n => (Return (Z.of_nat n), S n).

End MoreStatements.

(** * Properties *)

(** ** oop.py: [Vec2] *)

Section Vec2Facts.
Import Oop Vec2Statement.

(** Addition of the binary64 specification is symmetric in its operands:
    every case of [SFadd] treats them alike. *)
Lemma SF64add_comm (a b : spec_float) : SF64add a b = SF64add b a.
Proof.
  unfold SF64add, SFadd.
  destruct a as [sa|sa| |sa ma ea], b as [sb|sb| |sb mb eb];
    try reflexivity; try (destruct sa, sb; reflexivity).
  cbv zeta. rewrite (Z.min_comm ea eb). f_equal. apply Z.add_comm.
Qed.

Lemma float_add_comm (a b : float) : (a + b)%float = (b + a)%float.
Proof.
  rewrite <- (SF2Prim_Prim2SF (a + b)), <- (SF2Prim_Prim2SF (b + a)).
  now rewrite !add_spec, SF64add_comm.
Qed.

(** With [int] components (as in [demo]) the sum commutes as well. *)
Lemma Vec2_add_comm_int (a b : Vec2 Z) : add a b = add b a.
Proof. unfold add; cbn. f_equal; apply Z.add_comm. Qed.

(** [f == f] holds of every float but NaN. *)
Lemma float_eqb_refl (f : float) :
  PrimFloat.is_nan f = false -> PrimFloat.eqb f f = true.
Proof. unfold PrimFloat.is_nan. intros Hn. by apply negb_false_iff in Hn. Qed.

(** Under Python's [==] (false on NaN) the components of [a + b] and
    [b + a] compare equal whenever the sum is a number. *)
Lemma Vec2_add_comm_eqb (a b : Vec2 float) :
  PrimFloat.is_nan (x (add a b)) = false ->
  PrimFloat.eqb (x (add a b)) (x (add b a)) = true.
Proof.
  unfold add; cbn. rewrite (float_add_comm (x b) (x a)). apply float_eqb_refl.
Qed.




End Vec2Facts.

(** ** fastapi.py: the item handlers *)

Section ItemHandlers.
Import Py Fastapi Requests.

Lemma elem_of_keys (d : db) (k : Z) : k ∈ keys d <-> is_Some (d !! k).
Proof.
  unfold keys. rewrite list_elem_of_fmap. split.
  - intros [[k' item] [-> Hin]]. apply elem_of_map_to_list in Hin. eauto.
  - intros [item Hitem]. exists (k, item). split; [done|].
    by apply elem_of_map_to_list.
Qed.

Lemma keys_nil (d : db) : keys d = [] <-> d = ∅.
Proof.
  unfold keys. split.
  - intros H. apply fmap_nil_inv in H. by apply map_to_list_empty_iff.
  - intros ->. by rewrite map_to_list_empty.
Qed.

(** [fold_left Z.max] is an upper bound of the list and of its seed, and
    is one of them. *)
Lemma fold_max_ge (l : list Z) (n : Z) :
  n <= fold_left Z.max l n /\ forall k, k ∈ l -> k <= fold_left Z.max l n.
Proof.
  revert n. induction l as [|a l IH]; intros n; cbn.
  - split; [lia|]. intros k Hk. by apply elem_of_nil in Hk.
  - destruct (IH (Z.max n a)) as [Hn Hl]. split; [lia|].
    intros k Hk. apply elem_of_cons in Hk as [->|Hk]; [lia|auto].
Qed.

Lemma fold_max_in (l : list Z) (n : Z) : fold_left Z.max l n ∈ n :: l.
Proof.
  revert n. induction l as [|a l IH]; intros n; cbn.
  - apply list_elem_of_here.
  - specialize (IH (Z.max n a)).
    apply elem_of_cons in IH as [Heq|Hin].
    + rewrite Heq. destruct (Z.max_spec n a) as [[_ ->]|[_ ->]].
      * apply list_elem_of_further, list_elem_of_here.
      * apply list_elem_of_here.
    + by do 2 apply list_elem_of_further.
Qed.

Lemma max_default_ge (l : list Z) (dflt k : Z) :
  k ∈ l -> k <= max_default l dflt.
Proof.
  destruct l as [|n r]; cbn; intros Hk.
  - by apply elem_of_nil in Hk.
  - destruct (fold_max_ge r n) as [Hn Hr].
    apply elem_of_cons in Hk as [->|Hk]; auto.
Qed.

Lemma max_default_in (l : list Z) (dflt : Z) :
  l <> [] -> max_default l dflt ∈ l.
Proof. destruct l as [|n r]; [done|]. intros _. apply fold_max_in. Qed.

(** The key [create_item] picks is above every key in use. *)
Lemma new_id_above (d : db) (k : Z) :
  is_Some (d !! k) -> k < max_default (keys d) 0 + 1.
Proof.
  intros Hk. apply elem_of_keys in Hk.
  pose proof (max_default_ge _ 0 _ Hk). lia.
Qed.

Lemma new_id_fresh (d : db) : d !! (max_default (keys d) 0 + 1) = None.
Proof.
  destruct (d !! (max_default (keys d) 0 + 1)) eqn:E; [|done].
  assert (is_Some (d !! (max_default (keys d) 0 + 1))) as H by eauto.
  apply new_id_above in H. lia.
Qed.

(** C2. For every integer [item_id], [read_item] raises an
    [HTTPException] with status code 404 if and only if [item_id] is not
    a key of the dictionary; when it is a key the answer is the
    dictionary of the stored item's fields [id], [name] and [price]; the
    dictionary is left as it was. *)
Theorem read_item_404_iff_missing (d : db) (item_id : Z) :
  ((exists e, fst (read_item d item_id) = HTTPError e) <-> d !! item_id = None) /\
  (forall e, fst (read_item d item_id) = HTTPError e -> status_code e = 404) /\
  (forall item, d !! item_id = Some item ->
     fst (read_item d item_id) =
       Ok [("id", VInt (id item)); ("name", VStr (name item));
           ("price", VFloat (price item))]%string) /\
  snd (read_item d item_id) = d.
Proof.
  unfold read_item, get_item_or_404.
  destruct (d !! item_id) as [item|] eqn:E; cbn.
  - repeat split; try discriminate.
    + intros [e He]. discriminate.
    + intros item' [= <-]. reflexivity.
  - repeat split; try discriminate; eauto.
    intros e [= <-]. reflexivity.
Qed.

Lemma handle_keyed_by_id (d : db) (r : request) :
  keyed_by_id d -> keyed_by_id (handle d r).
Proof.
  intros Hd. destruct r as [item_id|nm pr]; cbn.
  - unfold read_item. by destruct (get_item_or_404 d item_id).
  - intros k item. rewrite lookup_insert.
    case_decide as Hk; [intros [= <-]; by subst|apply Hd].
Qed.

Lemma run_keyed_by_id (rs : list request) (d : db) :
  keyed_by_id d -> keyed_by_id (run rs d).
Proof.
  revert d. induction rs as [|r rs IH]; intros d Hd; cbn; [done|].
  apply IH, handle_keyed_by_id, Hd.
Qed.

(** C3. In the state of [IN_MEMORY_DB] after any sequence of
    [create_item] and [read_item] calls from the initial dictionary
    [{1: Item(1, "apple", 0.5)}], every stored item's [id] is the key it is
    stored under. *)
Theorem reachable_db_keyed_by_id (rs : list request) :
  keyed_by_id (run rs IN_MEMORY_DB).
Proof.
  apply run_keyed_by_id. intros k item. unfold IN_MEMORY_DB.
  rewrite lookup_singleton. case_decide; [|done]. intros [= <-]. by subst.
Qed.

(** C9. From every state of the dictionary and for every name and price,
    [create_item] stores the new item under the key [new_id], which is 1
    when the dictionary is empty and otherwise the greatest key plus 1:
    it is above every key in use and was free; exactly that entry is
    added, every other lookup is as before; the answer is the field
    dictionary of the new item. *)
Theorem create_item_inserts_fresh_max_key (d : db) (nm : string) (pr : float) :
  exists new_id : Z,
    let item := mkItem new_id nm pr in
    let d' := snd (create_item d nm pr) in
    (d = ∅ -> new_id = 1) /\
    (d <> ∅ -> is_Some (d !! (new_id - 1))) /\
    (forall k, is_Some (d !! k) -> k < new_id) /\
    d !! new_id = None /\
    d' !! new_id = Some item /\
    (forall k, k <> new_id -> d' !! k = d !! k) /\
    (forall k it, d !! k = Some it -> d' !! k = Some it) /\
    dom d' = {[new_id]} ∪ dom d /\
    size d' = S (size d) /\
    fst (create_item d nm pr) = asdict item.
Proof.
  exists (max_default (keys d) 0 + 1). cbn.
  pose proof (new_id_fresh d) as Hfresh.
  repeat split.
  - intros ->. reflexivity.
  - intros Hne. apply elem_of_keys.
    replace (max_default (keys d) 0 + 1 - 1) with (max_default (keys d) 0) by lia.
    apply max_default_in. by rewrite keys_nil.
  - apply new_id_above.
  - exact Hfresh.
  - apply lookup_insert_eq.
  - intros k Hk. by apply lookup_insert_ne.
  - intros k it Hk. rewrite lookup_insert_ne; [done|].
    intros <-. congruence.
  - apply dom_insert_L.
  - by apply map_size_insert_None.
Qed.

End ItemHandlers.

(** ** builtin_functions.py: [sorted(data, reverse=True)] *)

Section SortedDesc.
Import Py BuiltinFunctions.

(** In a sorted list each element is related to the next one. *)
Lemma Sorted_adjacent {X} (R : relation X) (l : list X) :
  Sorted R l ->
  forall (i : nat) (a b : X), l !! i = Some a -> l !! S i = Some b -> R a b.
Proof.
  induction 1 as [|h t Hs IH Hhd]; intros i a b Ha Hb.
  - discriminate.
  - destruct i as [|i]; cbn in Ha, Hb.
    + injection Ha as ->. destruct Hhd as [|c t' Hc]; [discriminate|].
      cbn in Hb. by injection Hb as ->.
    + eapply IH; eauto.
Qed.

Lemma sorted_desc_Sorted (l : list Z) : Sorted (flip Z.le) (sorted_desc l).
Proof.
  unfold sorted_desc, sorted. rewrite (rev_alt (merge_sort _ _)).
  apply Sorted_reverse, Sorted_merge_sort. apply _.
Qed.

Lemma sorted_desc_Permutation (l : list Z) : Permutation (sorted_desc l) l.
Proof.
  unfold sorted_desc, sorted.
  rewrite <- Permutation_rev, merge_sort_Permutation.
  symmetry. apply Permutation_rev.
Qed.

Example sorted_desc_data : sorted_desc data = [5; 4; 3; 1; 1].
Proof. vm_compute. reflexivity. Qed.

(** C5. For every list of integers, [sorted(l, reverse=True)] is
    non-increasing, each element being greater than or equal to the next
    one, and is a permutation of [l]. *)
Theorem sorted_reverse_nonincreasing_permutation (l : list Z) :
  (forall (i : nat) (a b : Z),
      sorted_desc l !! i = Some a -> sorted_desc l !! S i = Some b -> a >= b) /\
  Permutation (sorted_desc l) l.
Proof.
  split.
  - intros i a b Ha Hb.
    pose proof (Sorted_adjacent _ _ (sorted_desc_Sorted l) i a b Ha Hb) as H.
    unfold flip in H. lia.
  - apply sorted_desc_Permutation.
Qed.

End SortedDesc.

(** ** regex.py: the sanitizing substitution *)

Section Sanitizer.
Import Py Regex Statements.

Lemma sanitizer_class_matches (c : ascii) :
  class_matches sanitizer_class c = negb (allowed c).
Proof.
  unfold class_matches, sanitizer_class, allowed; cbn.
  by rewrite orb_false_r, !orb_assoc.
Qed.

Lemma sanitize_cons (c : ascii) (s : string) :
  sanitize (String c s) = String (if allowed c then c else "-"%char) (sanitize s).
Proof.
  unfold sanitize; cbn [re_sub_class]. rewrite sanitizer_class_matches.
  by destruct (allowed c).
Qed.

Example cleaned_value : cleaned = "user+tag@example.com"%string.
Proof. vm_compute. reflexivity. Qed.

Example sanitize_path : sanitize "a b/c:d"%string = "a-b-c-d"%string.
Proof. vm_compute. reflexivity. Qed.

(** C4. For every string [s], [re.sub(r"[^\w.@+-]", "-", s)] has the
    length of [s]; at each position a character outside the allowed set
    (word characters, [.], [@], [+], [-]) is replaced by [-] and a
    character inside it is kept. *)
Theorem sanitize_length_and_positions (s : string) :
  String.length (sanitize s) = String.length s /\
  forall (i : nat) (c : ascii),
    String.get i s = Some c ->
    String.get i (sanitize s) = Some (if allowed c then c else "-"%char).
Proof.
  induction s as [|h t [IHlen IHget]].
  - split; [reflexivity|]. intros i c H. destruct i; discriminate.
  - rewrite sanitize_cons. split.
    + cbn. by rewrite IHlen.
    + intros [|i] c H; cbn in H |- *.
      * by injection H as ->.
      * by apply IHget.
Qed.

End Sanitizer.

(** ** files.py: [safe_open_read] *)

Section SafeOpenRead.
Import Py Files Statements.





End SafeOpenRead.

(** ** fastapi.py: the websocket echo *)

Section WsEcho.
Import Py Fastapi Statements.

Lemma ws_except_quiet (close_raises : option exn) (e : exn) :
  received (fst (ws_except close_raises e)) = [] /\
  send_calls (fst (ws_except close_raises e)) = [] /\
  replies (fst (ws_except close_raises e)) = [] /\
  forall i data, fst (ws_except close_raises e) !! i <> Some (WsReceived data).
Proof.
  unfold ws_except. destruct (is_Exception e); cbn; repeat split; try done.
  all: by intros [|[|i]] data.
Qed.

(** The loop receives what the connection delivers, calls [send_text]
    once for each text with its echo, and the connection takes the
    replies it takes. *)
Lemma echo_loop_projections (close_raises : option exn) (script : list turn) :
  received (fst (echo_loop close_raises script)) = delivered script /\
  send_calls (fst (echo_loop close_raises script)) = map echo (delivered script) /\
  replies (fst (echo_loop close_raises script)) = map echo (answered script).
Proof.
  induction script as [|[e|data [e|]] rest (IHr & IHs & IHa)]; cbn [echo_loop].
  - done.
  - destruct (ws_except_quiet close_raises e) as (-> & -> & -> & _). done.
  - destruct (ws_except_quiet close_raises e) as (Hr & Hs & Ha & _).
    destruct (ws_except close_raises e) as [tr st]. cbn in *.
    by rewrite Hr, Hs.
  - destruct (echo_loop close_raises rest) as [tr st]. cbn in *.
    by rewrite IHr, IHs, IHa.
Qed.

(** Each text received is followed at once by the call that sends its
    echo. *)
Lemma echo_loop_adjacent (close_raises : option exn) (script : list turn) :
  forall (i : nat) (data : string),
    fst (echo_loop close_raises script) !! i = Some (WsReceived data) ->
    exists sent : bool,
      fst (echo_loop close_raises script) !! S i = Some (WsSendText (echo data) sent).
Proof.
  induction script as [|[e|data0 [e|]] rest IH]; cbn [echo_loop]; intros i data.
  - cbn. by destruct i.
  - intros H. by destruct (ws_except_quiet close_raises e) as (_ & _ & _ & Hno);
      apply Hno in H.
  - destruct (ws_except_quiet close_raises e) as (_ & _ & _ & Hno).
    destruct (ws_except close_raises e) as [tr st]. cbn in *.
    destruct i as [|[|i]]; cbn.
    + intros [= <-]. by exists false.
    + discriminate.
    + intros H. by apply Hno in H.
  - specialize (IH). destruct (echo_loop close_raises rest) as [tr st]. cbn in *.
    destruct i as [|[|i]]; cbn.
    + intros [= <-]. by exists true.
    + discriminate.
    + apply IH.
Qed.

(** Every text delivered is answered, but possibly the last one. *)
Lemma answered_delivered (script : list turn) :
  delivered script = answered script \/
  exists data, delivered script = answered script ++ [data].
Proof.
  induction script as [|[e|data [e|]] rest IH]; cbn.
  - by left.
  - by left.
  - right. by exists data.
  - destruct IH as [->|[d ->]]; [by left|right]. by exists d.
Qed.

Example ws_echo_two_messages :
  ws_echo None None
    [Recv "a" None; Recv "b" None; RecvRaises (RuntimeError "disconnect")]%string
  = ([WsAccept; WsReceived "a"; WsSendText "echo: a" true; WsReceived "b";
      WsSendText "echo: b" true; WsClose]%string, Closed).
Proof. vm_compute. reflexivity. Qed.

(** C7, as first stated, fails when [send_text] raises: the text was
    received and no reply is sent. *)
Lemma ws_echo_as_stated_fails :
  ~ ws_echo_as_stated None None
      [Recv "hello" (Some (RuntimeError "connection closed"))]%string.
Proof. intros H. specialize (H eq_refl). vm_compute in H. discriminate. Qed.

(** C7, amended. When [accept] returns, [ws_echo] receives every text the
    connection delivers; for each of them, right after receiving it, it
    calls [send_text] exactly once, with ["echo: "] followed by the text,
    so the calls are in the order of reception; the call sends the reply
    unless it raises, which ends the loop: every text received, except
    possibly the last one, gets exactly one reply.  When [accept] raises
    nothing is received or sent. *)
Theorem ws_echo_replies_once_in_order
    (accept_raises close_raises : option exn) (script : list turn) :
  let tr := fst (ws_echo accept_raises close_raises script) in
  let texts :=
    match accept_raises with Some _ => [] | None => delivered script end in
  let taken :=
    match accept_raises with Some _ => [] | None => answered script end in
  received tr = texts /\
  send_calls tr = map echo texts /\
  replies tr = map echo taken /\
  (taken = texts \/ exists data, texts = taken ++ [data]) /\
  (forall (i : nat) (data : string),
      tr !! i = Some (WsReceived data) ->
      exists sent : bool, tr !! S i = Some (WsSendText (echo data) sent)).
Proof.
  unfold ws_echo. destruct accept_raises as [e|]; cbn zeta.
  - cbn. repeat split; try done; [by left|]. by intros [|[|i]] data.
  - destruct (echo_loop_projections close_raises script) as (Hr & Hs & Ha).
    pose proof (echo_loop_adjacent close_raises script) as Hadj.
    destruct (echo_loop close_raises script) as [tr st]. cbn in *.
    split; [done|]. split; [done|]. split; [done|]. split.
    + destruct (answered_delivered script) as [->|[d ->]]; [by left|right; by exists d].
    + intros [|i] data H; cbn in H |- *; [discriminate|]. by apply Hadj.
Qed.

End WsEcho.

(** ** decorators.py: [retry] *)

Section RetryFacts.
Import Py Decorators RetrySpec.

Section Loop.
Context {W A R : Type}.
Variables (io : handler_io) (func : @callable W A R) (times : Z)
  (delay : float) (args : A).
Hypothesis print_ok : forall attempt, print_raises io attempt = None.
Hypothesis sleep_ok : forall attempt, sleep_raises io attempt = None.

Lemma nth_call_S (k : nat) (w : W) :
  nth_call func args (S k) w = nth_call func args k (snd (func args w)).
Proof. reflexivity. Qed.

(** The loop with [n] attempts left, started in state [w]: it stops at the
    first call that does not raise an [Exception] and gives what that
    call gives; when all [n] calls raise an [Exception] it raises the
    last one. *)
Lemma retry_loop_spec (n : nat) :
  forall (attempt : Z) (last_exc : option exn) (w : W),
    let run := retry_loop io func times delay args n attempt last_exc w in
    (calls (trace_of run) <= n)%nat /\
    (forall k : nat,
        (k < n)%nat ->
        (forall j, (j < k)%nat ->
           raises_Exception (fst (nth_call func args j w)) = true) ->
        raises_Exception (fst (nth_call func args k w)) = false ->
        result_of run = fst (nth_call func args k w) /\
        state_of run = snd (nth_call func args k w) /\
        calls (trace_of run) = S k) /\
    ((0 < n)%nat ->
     (forall j, (j < n)%nat ->
        raises_Exception (fst (nth_call func args j w)) = true) ->
     result_of run = fst (nth_call func args (n - 1) w) /\
     state_of run = snd (nth_call func args (n - 1) w) /\
     calls (trace_of run) = n).
Proof.
  induction n as [|n IH]; intros attempt last_exc w; cbn zeta.
  - cbn. repeat split; lia.
  - cbn [retry_loop].
    destruct (func args w) as [o w1] eqn:Hcall.
    assert (nth_call func args 0 w = (o, w1)) as H0 by exact Hcall.
    assert (forall k, nth_call func args (S k) w = nth_call func args k w1) as HS.
    { intros k. rewrite nth_call_S, Hcall. reflexivity. }
    destruct o as [r|e]; [|destruct (is_Exception e) eqn:He].
    + (* the call returns *)
      cbn. split; [lia|]. split.
      * intros [|k] _ Hbefore Hk.
        -- rewrite H0. done.
        -- specialize (Hbefore 0%nat ltac:(lia)). rewrite H0 in Hbefore. done.
      * intros _ Hall. specialize (Hall 0%nat ltac:(lia)).
        rewrite H0 in Hall. done.
    + (* an [Exception]: print, sleep, go on *)
      rewrite print_ok, sleep_ok.
      specialize (IH (attempt + 1) (Some e) w1).
      destruct (retry_loop io func times delay args n (attempt + 1) (Some e) w1)
        as [[o' w'] tr] eqn:Hrec.
      cbn in IH |- *. destruct IH as (IHle & IHfirst & IHall).
      split; [lia|]. split.
      * intros [|k] Hlt Hbefore Hk.
        -- rewrite H0 in Hk. cbn in Hk. congruence.
        -- rewrite HS in Hk |- *.
           destruct (IHfirst k ltac:(lia)) as (-> & -> & ->); [|done|done].
           intros j Hj. rewrite <- HS. apply Hbefore. lia.
      * intros _ Hall. destruct n as [|n].
        -- cbn in Hrec. injection Hrec as <- <- <-.
           cbn. rewrite H0. done.
        -- replace (S n - 0)%nat with (S (S n - 1)) by lia.
           rewrite HS.
           destruct IHall as (-> & -> & ->); [lia| |done].
           intros j Hj. rewrite <- HS. apply Hall. lia.
    + (* not an [Exception]: it leaves the wrapper *)
      cbn. split; [lia|]. split.
      * intros [|k] _ Hbefore Hk.
        -- rewrite H0. done.
        -- specialize (Hbefore 0%nat ltac:(lia)). rewrite H0 in Hbefore.
           cbn in Hbefore. congruence.
      * intros _ Hall. specialize (Hall 0%nat ltac:(lia)).
        rewrite H0 in Hall. cbn in Hall. congruence.
Qed.

End Loop.

(** With [times = 0] the function is never called and the wrapper raises
    a [TypeError], from [raise None]. *)
Lemma retry_zero_times :
  retry quiet_io 0 0.125 always_fails tt 0%nat
  = (Raise (TypeError "exceptions must derive from BaseException"), 0%nat, []).
Proof. vm_compute. reflexivity. Qed.

(** With the delay [-1], which [time.sleep] rejects, the wrapper ends in
    the first handler, with the [ValueError] of [time.sleep]. *)
Lemma retry_negative_delay :
  result_of (retry sleep_rejects_io 3 (-1) fails_once tt 0%nat)
  = Raise (ValueError "sleep length must be non-negative") /\
  calls (trace_of (retry sleep_rejects_io 3 (-1) fails_once tt 0%nat)) = 1%nat.
Proof. vm_compute. split; reflexivity. Qed.

(** When printing the line of the failed attempt raises, here because the
    standard output is closed, the wrapper ends in the first handler with
    that exception. *)
Lemma retry_print_fails :
  result_of (retry print_fails_io 3 0.125 fails_once tt 0%nat)
  = Raise (ValueError "I/O operation on closed file.") /\
  calls (trace_of (retry print_fails_io 3 0.125 fails_once tt 0%nat)) = 1%nat.
Proof. vm_compute. split; reflexivity. Qed.

(** An exception that is not an [Exception] is not caught. *)
Lemma retry_interrupted :
  result_of (retry quiet_io 3 0.125 interrupted_once tt 0%nat)
  = Raise KeyboardInterrupt /\
  calls (trace_of (retry quiet_io 3 0.125 interrupted_once tt 0%nat)) = 1%nat.
Proof. vm_compute. split; reflexivity. Qed.

(** C1, as first stated, fails for a function interrupted by
    [KeyboardInterrupt] on its first call (the wrapper does not call it
    again although a second call would return), for [times = 0], for a
    negative delay, and when printing the line of a failed attempt
    raises. *)
Lemma retry_as_stated_fails :
  ~ retry_as_stated quiet_io 3 0.125 interrupted_once tt 0%nat /\
  ~ retry_as_stated quiet_io 0 0.125 always_fails tt 0%nat /\
  ~ retry_as_stated sleep_rejects_io 3 (-1) fails_once tt 0%nat /\
  ~ retry_as_stated print_fails_io 3 0.125 fails_once tt 0%nat.
Proof.
  split; [|split; [|split]].
  - intros (_ & Hfirst & _).
    destruct (Hfirst 1%nat 7) as [Hres _]; [lia| |reflexivity|].
    + intros j Hj. assert (j = 0%nat) as -> by lia.
      exists KeyboardInterrupt. reflexivity.
    + destruct retry_interrupted as [Hr _]. rewrite Hr in Hres. discriminate.
  - intros (_ & _ & Hall).
    destruct Hall as (e & He & Hres & _); [intros j Hj; lia|].
    rewrite retry_zero_times in Hres. cbn in Hres, He.
    injection He as <-. discriminate.
  - intros (_ & Hfirst & _).
    destruct (Hfirst 1%nat 7) as [Hres _]; [lia| |reflexivity|].
    + intros j Hj. assert (j = 0%nat) as -> by lia.
      eexists. reflexivity.
    + destruct retry_negative_delay as [Hr _]. rewrite Hr in Hres. discriminate.
  - intros (_ & Hfirst & _).
    destruct (Hfirst 1%nat 7) as [Hres _]; [lia| |reflexivity|].
    + intros j Hj. assert (j = 0%nat) as -> by lia.
      eexists. reflexivity.
    + destruct retry_print_fails as [Hr _]. rewrite Hr in Hres. discriminate.
Qed.

(** C1, amended. For every function, every [times >= 1] and every delay,
    as long as neither printing the line of a failed attempt nor
    [time.sleep(delay)] raises, the wrapper calls the function until the
    first call that does not raise an [Exception]: a call that returns,
    whose result the wrapper returns unchanged, or a call that raises an
    exception not derived from [Exception], which the wrapper lets
    through.  It makes at most [times] calls, and when each of the
    [times] calls raises an [Exception] it raises the exception of the
    last one. *)
Theorem retry_until_first_success {W A R : Type} (io : handler_io)
    (func : @callable W A R) (times : Z) (delay : float) (args : A) (w : W) :
  1 <= times ->
  (forall attempt, print_raises io attempt = None) ->
  (forall attempt, sleep_raises io attempt = None) ->
  let run := retry io times delay func args w in
  Z.of_nat (calls (trace_of run)) <= times /\
  (forall k : nat,
      Z.of_nat k < times ->
      (forall j, (j < k)%nat ->
         raises_Exception (fst (nth_call func args j w)) = true) ->
      raises_Exception (fst (nth_call func args k w)) = false ->
      result_of run = fst (nth_call func args k w) /\
      state_of run = snd (nth_call func args k w) /\
      calls (trace_of run) = S k) /\
  (forall (k : nat) (r : R),
      Z.of_nat k < times ->
      (forall j, (j < k)%nat ->
         raises_Exception (fst (nth_call func args j w)) = true) ->
      fst (nth_call func args k w) = Return r ->
      result_of run = Return r /\ calls (trace_of run) = S k) /\
  ((forall j, Z.of_nat j < times ->
      raises_Exception (fst (nth_call func args j w)) = true) ->
   exists e, fst (nth_call func args (Z.to_nat times - 1) w) = Raise e /\
             is_Exception e = true /\
             result_of run = Raise e /\
             Z.of_nat (calls (trace_of run)) = times).
Proof.
  intros Htimes Hprint Hsleep. cbn zeta. unfold retry.
  destruct (retry_loop_spec io func times delay args Hprint Hsleep
              (Z.to_nat times) 1 None w) as (Hle & Hfirst & Hall).
  split; [lia|]. split; [|split].
  - intros k Hk. apply Hfirst. lia.
  - intros k r Hk Hbefore Hret.
    destruct (Hfirst k ltac:(lia) Hbefore) as (Hres & _ & Hcalls).
    + by rewrite Hret.
    + by rewrite Hres, Hret.
  - intros Hraise.
    destruct Hall as (Hres & _ & Hcalls); [lia| |].
    + intros j Hj. apply Hraise. lia.
    + specialize (Hraise (Z.to_nat times - 1)%nat ltac:(lia)).
      destruct (fst (nth_call func args (Z.to_nat times - 1) w)) as [r|e] eqn:E;
        [discriminate|].
      exists e. repeat split; [exact Hraise|exact Hres|lia].
Qed.

(** The amended statement at [times = 3], [delay = 0.125] and a function
    that fails once. *)
Lemma retry_until_first_success_witness :
  1 <= 3 /\
  (forall attempt, print_raises quiet_io attempt = None) /\
  (forall attempt, sleep_raises quiet_io attempt = None) /\
  result_of (retry quiet_io 3 0.125 fails_once tt 0%nat) = Return 7.
Proof.
  split; [lia|]. split; [reflexivity|]. split; [reflexivity|].
  destruct (retry_until_first_success quiet_io fails_once 3 0.125 tt 0%nat
              ltac:(lia) (fun _ => eq_refl) (fun _ => eq_refl))
    as (_ & _ & Hret & _).
  destruct (Hret 1%nat 7) as [Hres _]; [lia| |reflexivity|exact Hres].
  intros j Hj. assert (j = 0%nat) as -> by lia. reflexivity.
Defined.

End RetryFacts.

(** ** fastapi.py: [builtin_stats] *)

Section BuiltinStats.
Import Py Fastapi Statements.

Local Open Scope string_scope.

(** *** Splitting and stripping *)

Lemma append_nil_l (s : string) : "" ++ s = s.
Proof. reflexivity. Qed.

Lemma append_cons (c : ascii) (s t : string) :
  String c s ++ t = String c (s ++ t).
Proof. reflexivity. Qed.

Lemma split_comma_free (sep : ascii) (seg : string) :
  all_chars (fun c => negb (Ascii.eqb c sep)) seg = true ->
  split sep seg = [seg].
Proof.
  induction seg as [|c seg IH]; cbn [split all_chars]; [done|].
  intros [Hc Hseg]%andb_true_iff. apply negb_true_iff in Hc.
  by rewrite Hc, (IH Hseg).
Qed.

Lemma split_app_sep (sep : ascii) (seg rest : string) :
  all_chars (fun c => negb (Ascii.eqb c sep)) seg = true ->
  split sep (seg ++ String sep rest) = seg :: split sep rest.
Proof.
  induction seg as [|c seg IH]; cbn [all_chars].
  - intros _. rewrite append_nil_l. cbn [split]. by rewrite Ascii.eqb_refl.
  - intros [Hc Hseg]%andb_true_iff. apply negb_true_iff in Hc.
    rewrite append_cons. cbn [split]. by rewrite Hc, (IH Hseg).
Qed.

(** Splitting the joined segments gives the segments back. *)
Lemma split_concat (segs : list string) :
  segs <> [] ->
  Forall (fun seg => comma_free seg = true) segs ->
  split "," (String.concat "," segs) = segs.
Proof.
  induction segs as [|seg [|seg' segs] IH]; [done| |]; intros _ Hfree.
  - cbn. apply split_comma_free. by inversion Hfree.
  - inversion Hfree as [|? ? Hseg Hrest]; subst.
    change (String.concat "," (seg :: seg' :: segs))
      with (seg ++ String "," (String.concat "," (seg' :: segs))).
    rewrite split_app_sep by exact Hseg.
    by rewrite IH.
Qed.

Lemma split_nonempty (sep : ascii) (s : string) : split sep s <> [].
Proof.
  destruct s as [|c s]; cbn; [done|].
  destruct (Ascii.eqb c sep); [done|]. by destruct (split sep s).
Qed.

(** Every string is the join of its segments, none of which holds a
    comma. *)
Lemma split_segments_of (values : string) :
  segments_of values (split "," values).
Proof.
  split; [apply split_nonempty|].
  induction values as [|c s [IHfree IHcat]]; cbn [split].
  - split; [by repeat constructor|done].
  - pose proof (split_nonempty "," s) as Hne.
    destruct (Ascii.eqb c ",") eqn:Hc.
    + apply Ascii.eqb_eq in Hc as ->. split; [by constructor|].
      destruct (split "," s) as [|h t]; [done|].
      rewrite IHcat at 1. reflexivity.
    + destruct (split "," s) as [|h t]; [done|].
      apply Forall_cons in IHfree as [Hh Ht]. split.
      * constructor; [|done]. unfold comma_free in Hh |- *.
        cbn [all_chars]. by rewrite Hc, Hh.
      * rewrite IHcat at 1. by destruct t.
Qed.

Lemma lstrip_with_all (p : ascii -> bool) (s : string) :
  all_chars p s = true -> lstrip_with p s = "".
Proof.
  induction s as [|c s IH]; cbn; [done|].
  intros [-> Hs]%andb_true_iff. auto.
Qed.

Lemma lstrip_with_app (p : ascii -> bool) (l t : string) :
  all_chars p l = true -> lstrip_with p (l ++ t) = lstrip_with p t.
Proof.
  induction l as [|c l IH]; cbn [all_chars]; [done|].
  intros [Hc Hl]%andb_true_iff. rewrite append_cons. cbn [lstrip_with].
  rewrite Hc. auto.
Qed.

Lemma rstrip_with_all (p : ascii -> bool) (s : string) :
  all_chars p s = true -> rstrip_with p s = "".
Proof.
  induction s as [|c s IH]; cbn; [done|].
  intros [-> Hs]%andb_true_iff. by rewrite IH.
Qed.

Lemma rstrip_with_app (p : ascii -> bool) (b r : string) :
  all_chars (fun c => negb (p c)) b = true ->
  all_chars p r = true ->
  rstrip_with p (b ++ r) = b.
Proof.
  intros Hb Hr. induction b as [|c b IH].
  - rewrite append_nil_l. by apply rstrip_with_all.
  - cbn in Hb. apply andb_true_iff in Hb as [Hc Hb].
    apply negb_true_iff in Hc. rewrite append_cons. cbn [rstrip_with].
    rewrite (IH Hb), Hc. by destruct b.
Qed.

Lemma rstrip_with_nonempty (p : ascii -> bool) (c : ascii) (s : string) :
  p c = false -> rstrip_with p (String c s) <> "".
Proof. intros Hc. cbn. rewrite Hc. by destruct (rstrip_with p s). Qed.

(** [x.strip()] is true exactly for the segments that are not blank. *)
Lemma strip_truthy (seg : string) : str_truthy (strip seg) = negb (blank seg).
Proof.
  unfold strip, blank. induction seg as [|c seg IH]; cbn; [done|].
  destruct (isspace c) eqn:Hc; cbn; [exact IH|].
  pose proof (rstrip_with_nonempty isspace c seg Hc) as Hne. cbn in Hne.
  rewrite Hc in Hne |- *. by destruct (rstrip_with isspace seg).
Qed.

(** *** Reading a literal *)

Lemma digit_not_space (c : ascii) (d : Z) :
  digit_of c = Some d -> int_isspace c = false.
Proof.
  destruct c as [[] [] [] [] [] [] [] []]; vm_compute; congruence.
Qed.

Lemma digit_split_sign (c : ascii) (d : Z) (s : string) :
  digit_of c = Some d -> split_sign (String c s) = (false, String c s).
Proof.
  destruct c as [[] [] [] [] [] [] [] []]; vm_compute; congruence.
Qed.

Lemma Digits_no_space (s : string) (ds : list Z) :
  Digits s ds -> all_chars (fun c => negb (int_isspace c)) s = true.
Proof.
  induction 1 as [c d Hc|c d s ds Hc _ IH|c d s ds Hc _ IH]; cbn;
    rewrite (digit_not_space c d Hc); cbn; auto.
Qed.

Lemma Digits_head (s : string) (ds : list Z) :
  Digits s ds -> exists c d t, s = String c t /\ digit_of c = Some d.
Proof. destruct 1; eauto. Qed.

Lemma scan_digits_Digits (s : string) (ds : list Z) :
  Digits s ds ->
  forall (acc : Z) (count : N) (prev : bool),
    scan_digits acc count prev s
    = Some (fold_left (fun a d => 10 * a + d) ds acc,
            (count + N.of_nat (length ds))%N, "").
Proof.
  induction 1 as [c d Hc|c d s ds Hc _ IH|c d s ds Hc _ IH];
    intros acc count prev; cbn [scan_digits]; rewrite Hc.
  - reflexivity.
  - rewrite IH. cbn [length fold_left]. do 3 f_equal. lia.
  - change (digit_of "_") with (@None Z). cbn [Ascii.eqb Bool.eqb].
    rewrite IH. cbn [length fold_left]. do 3 f_equal. lia.
Qed.

Lemma digit_count_app (a b : string) :
  digit_count (a ++ b) = (digit_count a + digit_count b)%N.
Proof.
  induction a as [|c a IH]; [done|].
  rewrite append_cons. cbn [digit_count]. rewrite IH. lia.
Qed.

Lemma space_not_digit (c : ascii) : int_isspace c = true -> digit_of c = None.
Proof.
  destruct c as [[] [] [] [] [] [] [] []]; vm_compute; congruence.
Qed.

Lemma digit_count_space (l : string) :
  all_chars int_isspace l = true -> digit_count l = 0%N.
Proof.
  induction l as [|c l IH]; [done|]. cbn.
  intros [Hc Hl]%andb_true_iff. by rewrite (space_not_digit c Hc), (IH Hl).
Qed.

Lemma digit_count_Digits (s : string) (ds : list Z) :
  Digits s ds -> digit_count s = N.of_nat (length ds).
Proof.
  induction 1 as [c d Hc|c d s ds Hc _ IH|c d s ds Hc _ IH];
    cbn [digit_count length]; rewrite Hc.
  - reflexivity.
  - rewrite IH. lia.
  - change (digit_of "_") with (@None Z). rewrite IH. lia.
Qed.

Lemma Literal_no_space (body : string) (n : Z) :
  Literal body n -> all_chars (fun c => negb (int_isspace c)) body = true.
Proof.
  destruct 1 as [s ds H|s ds H|s ds H]; cbn; by apply (Digits_no_space s ds).
Qed.

Lemma Literal_head (body : string) (n : Z) :
  Literal body n -> exists c t, body = String c t /\ int_isspace c = false.
Proof.
  destruct 1 as [s ds H|s ds H|s ds H]; [|by eauto..].
  destruct (Digits_head _ _ H) as (c & d & t & -> & Hc).
  eauto using digit_not_space.
Qed.

Lemma Literal_signed (body : string) (n : Z) :
  Literal body n ->
  exists neg ds t, split_sign body = (neg, t) /\ Digits t ds /\
                   n = (if neg then - decimal_value ds else decimal_value ds) /\
                   digit_count body = N.of_nat (length ds).
Proof.
  destruct 1 as [s ds H|s ds H|s ds H].
  - destruct (Digits_head _ _ H) as (c & d & t & -> & Hc).
    exists false, ds, (String c t). rewrite (digit_split_sign c d t Hc).
    by rewrite (digit_count_Digits _ _ H).
  - exists false, ds, s. repeat split; try done.
    cbn [digit_count]. change (digit_of "+") with (@None Z).
    by rewrite (digit_count_Digits _ _ H).
  - exists true, ds, s. repeat split; try done.
    cbn [digit_count]. change (digit_of "-") with (@None Z).
    by rewrite (digit_count_Digits _ _ H).
Qed.

(** The digits of a segment are those of its literal. *)
Lemma integer_segment_digits (seg : string) (n : Z) :
  integer_segment seg n ->
  exists body, Literal body n /\ digit_count seg = digit_count body.
Proof.
  intros (l & body & r & -> & Hl & Hr & Hlit). exists body. split; [done|].
  rewrite !digit_count_app, (digit_count_space l Hl), (digit_count_space r Hr).
  lia.
Qed.

(** [int] reads a literal with whitespace around it as its value, when
    its digits are within the limit. *)
Lemma int_integer_segment (max_str_digits : N) (seg : string) (n : Z) :
  integer_segment seg n ->
  exceeds_limit max_str_digits (digit_count seg) = false ->
  int max_str_digits seg = Return n.
Proof.
  intros Hseg Hlim.
  destruct (integer_segment_digits _ _ Hseg) as (body' & _ & Hcount).
  destruct Hseg as (l & body & r & -> & Hl & Hr & Hlit). unfold int.
  rewrite lstrip_with_app by exact Hl.
  destruct (Literal_head _ _ Hlit) as (c & t & -> & Hc).
  rewrite append_cons. cbn [lstrip_with]. rewrite Hc, <- append_cons.
  rewrite rstrip_with_app by eauto using Literal_no_space.
  destruct (Literal_signed _ _ Hlit) as (neg & ds & t' & -> & Hds & -> & Hdigits).
  rewrite (scan_digits_Digits _ _ Hds). rewrite N.add_0_l, <- Hdigits.
  rewrite !digit_count_app, (digit_count_space l Hl), (digit_count_space r Hr),
    N.add_0_l, N.add_0_r in Hlim.
  by rewrite Hlim.
Qed.

(** *** The statistics *)

Lemma fold_min_le (l : list Z) (n : Z) :
  fold_left Z.min l n <= n /\ forall k, k ∈ l -> fold_left Z.min l n <= k.
Proof.
  revert n. induction l as [|a l IH]; intros n; cbn.
  - split; [lia|]. intros k Hk. by apply elem_of_nil in Hk.
  - destruct (IH (Z.min n a)) as [Hn Hl]. split; [lia|].
    intros k Hk. apply elem_of_cons in Hk as [->|Hk]; [lia|auto].
Qed.

Lemma fold_min_in (l : list Z) (n : Z) : fold_left Z.min l n ∈ n :: l.
Proof.
  revert n. induction l as [|a l IH]; intros n; cbn.
  - apply list_elem_of_here.
  - specialize (IH (Z.min n a)).
    apply elem_of_cons in IH as [Heq|Hin].
    + rewrite Heq. destruct (Z.min_spec n a) as [[_ ->]|[_ ->]].
      * apply list_elem_of_here.
      * apply list_elem_of_further, list_elem_of_here.
    + by do 2 apply list_elem_of_further.
Qed.

Lemma sum_foldr (l : list Z) (a : Z) : fold_left Z.add l a = a + foldr Z.add 0 l.
Proof.
  revert a. induction l as [|n l IH]; intros a; cbn; [lia|].
  rewrite IH. lia.
Qed.

(** The comprehension reads every segment that is not blank. *)
Lemma int_of_nonblank_integers (max_str_digits : N) (segs : list string) :
  forall nums : list Z,
    Forall2 integer_segment (nonblank_segments segs) nums ->
    Forall (fun seg => exceeds_limit max_str_digits (digit_count seg) = false)
      (nonblank_segments segs) ->
    int_of_nonblank max_str_digits segs = Return nums.
Proof.
  unfold nonblank_segments.
  induction segs as [|seg segs IH]; intros nums H Hlim;
    cbn [int_of_nonblank List.filter] in *.
  - by inversion H.
  - rewrite strip_truthy. destruct (negb (blank seg)); [|by apply IH].
    inversion H as [|? n ? ns Hseg Hrest]; subst.
    apply Forall_cons in Hlim as [Hlim1 Hlim'].
    rewrite (int_integer_segment _ _ _ Hseg Hlim1). cbn.
    by rewrite (IH _ Hrest Hlim').
Qed.

Example builtin_stats_sample :
  builtin_stats default_max_str_digits "1, 2,,3"
  = Return [("count", VInt 3); ("sum", VInt 6); ("min", VInt 1); ("max", VInt 3)].
Proof. vm_compute. reflexivity. Qed.

Example builtin_stats_not_a_number :
  builtin_stats default_max_str_digits "1,x"
  = Raise (ValueError "invalid literal for int() with base 10").
Proof. vm_compute. reflexivity. Qed.

(** A segment led by the separator U+001C is not blank for [strip], which
    removes the separator, and is not a number for [int], which does not
    skip it. *)
Example builtin_stats_separator_not_skipped :
  strip (String "028" "5") = "5" /\
  builtin_stats default_max_str_digits (String "028" "5")
  = Raise (ValueError "invalid literal for int() with base 10").
Proof. vm_compute. split; reflexivity. Qed.

(** A literal of 4301 digits is over the default limit of 4300. *)
Example builtin_stats_too_many_digits :
  builtin_stats default_max_str_digits (replicate_char 4301 "1")
  = Raise (ValueError "Exceeds the limit for integer string conversion").
Proof. vm_compute. reflexivity. Qed.

Lemma Digits_replicate (n : nat) (c : ascii) (d : Z) :
  digit_of c = Some d ->
  Digits (replicate_char (S n) c) (replicate (S n) d).
Proof.
  intros Hc. induction n as [|n IH]; cbn [replicate_char replicate] in *.
  - by constructor.
  - by apply digits_more.
Qed.

(** C10, as first stated, fails for a segment with the separator U+001C
    before the number, which is whitespace for [str.isspace] and
    [strip] but not for [int], and, under the default digit limit, for a
    literal of 4301 digits. *)
Lemma builtin_stats_as_stated_fails :
  ~ builtin_stats_as_stated default_max_str_digits (String "028" "5") /\
  ~ builtin_stats_as_stated default_max_str_digits (replicate_char 4301 "1").
Proof.
  split.
  - intros H.
    destruct (H [String "028" "5"] [5]) as (d & Hd & _).
    + split; [discriminate|]. split; [by repeat constructor|reflexivity].
    + repeat constructor. exists (String "028" ""), "5", "". repeat split.
      apply (literal_unsigned "5" [5]), digits_one. reflexivity.
    + destruct builtin_stats_separator_not_skipped as [_ Hraise].
      rewrite Hraise in Hd. discriminate.
  - intros H.
    destruct (H [replicate_char 4301 "1"] [decimal_value (replicate 4301 1)])
      as (d & Hd & _).
    + split; [discriminate|]. split; [|reflexivity].
      constructor; [|constructor]. vm_compute. reflexivity.
    + assert (nonblank_segments [replicate_char 4301 "1"]
              = [replicate_char 4301 "1"]) as -> by (vm_compute; reflexivity).
      constructor; [|constructor].
      exists "", (replicate_char 4301 "1"), "". split.
      * assert (forall s, s = "" ++ s ++ "") as Happ.
        { intros s. rewrite append_nil_l. induction s as [|c s IH]; [done|].
          by rewrite append_cons, <- IH. }
        apply Happ.
      * repeat split. apply literal_unsigned. by apply Digits_replicate.
    + rewrite builtin_stats_too_many_digits in Hd. discriminate.
Qed.

(** C10, amended. For every string [values] whose comma-separated
    non-blank segments are decimal integer literals, possibly with the
    whitespace [int] skips around them, and no longer than the
    interpreter's digit limit allows, [builtin_stats] answers with [count]
    the number of non-blank segments, [sum] the sum of their values, [min]
    and [max] the least and the greatest of them; when no segment is
    non-blank it answers [count] 0, [sum] 0 and [None] for [min] and
    [max], and does not raise. *)
Theorem builtin_stats_of_integer_segments (max_str_digits : N)
    (values : string) (segs : list string) (nums : list Z) :
  segments_of values segs ->
  Forall2 integer_segment (nonblank_segments segs) nums ->
  Forall (fun seg => exceeds_limit max_str_digits (digit_count seg) = false)
    (nonblank_segments segs) ->
  exists lo hi : value,
    builtin_stats max_str_digits values
    = Return [("count", VInt (Z.of_nat (length (nonblank_segments segs))));
              ("sum", VInt (foldr Z.add 0 nums)); ("min", lo); ("max", hi)] /\
    (nonblank_segments segs = [] ->
       builtin_stats max_str_digits values
       = Return [("count", VInt 0); ("sum", VInt 0); ("min", VNone); ("max", VNone)]) /\
    (nums = [] -> lo = VNone /\ hi = VNone) /\
    (nums <> [] ->
       exists a b : Z,
         lo = VInt a /\ hi = VInt b /\ a ∈ nums /\ b ∈ nums /\
         forall n, n ∈ nums -> a <= n <= b).
Proof.
  intros (Hne & Hfree & ->) Hnums Hlim. unfold builtin_stats.
  rewrite (split_concat segs Hne Hfree).
  rewrite (int_of_nonblank_integers max_str_digits segs nums Hnums Hlim).
  rewrite (Forall2_length _ _ _ Hnums).
  destruct nums as [|n ns].
  - exists VNone, VNone. cbn. repeat split; done.
  - exists (VInt (fold_left Z.min ns n)), (VInt (fold_left Z.max ns n)).
    split; [|split; [|split]].
    + cbn. unfold len, sum. cbn [fold_left]. rewrite sum_foldr.
      by rewrite Z.add_0_l.
    + intros Hnil. rewrite Hnil in Hnums. inversion Hnums.
    + discriminate.
    + intros _. exists (fold_left Z.min ns n), (fold_left Z.max ns n).
      repeat split; auto using fold_min_in, fold_max_in.
      * destruct (fold_min_le ns n) as [Hn Hl].
        apply elem_of_cons in H as [->|H]; auto.
      * destruct (fold_max_ge ns n) as [Hn Hl].
        apply elem_of_cons in H as [->|H]; auto.
Qed.

Lemma builtin_stats_of_integer_segments_witness :
  segments_of "1, 2,,-3" ["1"; " 2"; ""; "-3"] /\
  Forall2 integer_segment (nonblank_segments ["1"; " 2"; ""; "-3"]) [1; 2; -3] /\
  Forall (fun seg => exceeds_limit default_max_str_digits (digit_count seg) = false)
    (nonblank_segments ["1"; " 2"; ""; "-3"]) /\
  exists lo hi : value,
    builtin_stats default_max_str_digits "1, 2,,-3"
    = Return [("count", VInt 3); ("sum", VInt 0); ("min", lo); ("max", hi)].
Proof.
  assert (segments_of "1, 2,,-3" ["1"; " 2"; ""; "-3"]) as Hsegs.
  { split; [discriminate|]. split; [|reflexivity].
    repeat constructor. }
  assert (Forall2 integer_segment (nonblank_segments ["1"; " 2"; ""; "-3"])
            [1; 2; -3]) as Hnums.
  { repeat constructor.
    - exists "", "1", "". repeat split.
      apply (literal_unsigned "1" [1]), digits_one. reflexivity.
    - exists " ", "2", "". repeat split.
      apply (literal_unsigned "2" [2]), digits_one. reflexivity.
    - exists "", "-3", "". repeat split.
      apply (literal_minus "3" [3]), digits_one. reflexivity. }
  assert (Forall (fun seg =>
                    exceeds_limit default_max_str_digits (digit_count seg) = false)
            (nonblank_segments ["1"; " 2"; ""; "-3"])) as Hlim.
  { repeat constructor. }
  split; [exact Hsegs|]. split; [exact Hnums|]. split; [exact Hlim|].
  destruct (builtin_stats_of_integer_segments _ _ _ _ Hsegs Hnums Hlim)
    as (lo & hi & Heq & _).
  exists lo, hi. exact Heq.
Defined.

End BuiltinStats.

(** * Further properties of the sample modules *)

(** ** data_types.py: [first_even] *)

Section FirstEven.
Import DataTypes.

Lemma mod2_even (n : Z) : (n mod 2 =? 0) = Z.even n.
Proof.
  rewrite Zeven_mod. reflexivity.
Qed.

(** X1. [first_even] returns the first even element: everything before it
    in the list is odd; it returns [None] exactly when every element is
    odd, in particular for the empty list. *)
Theorem first_even_is_first (nums : list Z) :
  match first_even nums with
  | Some n =>
      exists pre post : list Z,
        nums = pre ++ n :: post /\ Z.even n = true /\
        Forall (fun m => Z.odd m = true) pre
  | None => Forall (fun m => Z.odd m = true) nums
  end.
Proof.
  induction nums as [|m r IH]; cbn [first_even]; [constructor|].
  rewrite mod2_even. destruct (Z.even m) eqn:Hm.
  - exists [], r. repeat split; [done|constructor].
  - assert (Z.odd m = true) as Hodd by (rewrite <- Z.negb_even, Hm; done).
    destruct (first_even r) as [n|].
    + destruct IH as (pre & post & -> & Hn & Hpre).
      exists (m :: pre), post. repeat split; [done|by constructor].
    + by constructor.
Qed.

End FirstEven.

(** ** fastapi.py: the items, further *)

Section ItemsFurther.
Import Py Fastapi Requests MoreStatements.

(** X2. An item can be read back under the id [create_item] answered:
    [read_item] on that id gives the very dictionary [create_item]
    returned, and every other id reads as before the creation. *)
Theorem read_item_after_create_item (d : db) (nm : string) (pr : float) :
  exists new_id : Z,
    fst (create_item d nm pr)
    = [("id", VInt new_id); ("name", VStr nm); ("price", VFloat pr)]%string /\
    fst (read_item (snd (create_item d nm pr)) new_id)
    = Ok (fst (create_item d nm pr)) /\
    forall item_id, item_id <> new_id ->
      fst (read_item (snd (create_item d nm pr)) item_id)
      = fst (read_item d item_id).
Proof.
  exists (max_default (keys d) 0 + 1).
  unfold create_item. cbn [fst snd]. split; [done|]. split.
  - unfold read_item, get_item_or_404. rewrite lookup_insert_eq. reflexivity.
  - intros item_id Hne. unfold read_item, get_item_or_404.
    rewrite lookup_insert_ne by done. by destruct (d !! item_id).
Qed.





End ItemsFurther.

(** ** fastapi.py: the websocket echo, further *)

Section WsClose.
Import Py Fastapi Statements.

Lemma ws_except_ends (close_raises : option exn) (e : exn) (pre : list ws_event) :
  WsClose ∉ pre ->
  ends_after close_raises e (pre ++ fst (ws_except close_raises e))
    (snd (ws_except close_raises e)).
Proof.
  intros Hpre. unfold ends_after, ws_except.
  destruct (is_Exception e); cbn.
  - split; [|done]. by exists pre.
  - by rewrite app_nil_r.
Qed.

Lemma echo_loop_ends (close_raises : option exn) (script : list turn) :
  forall pre : list ws_event,
    WsClose ∉ pre ->
    match first_failure script with
    | None =>
        (WsClose ∉ pre ++ fst (echo_loop close_raises script)) /\
        snd (echo_loop close_raises script) = Waiting
    | Some e =>
        ends_after close_raises e (pre ++ fst (echo_loop close_raises script))
          (snd (echo_loop close_raises script))
    end.
Proof.
  induction script as [|[e|data [e|]] rest IH]; intros pre Hpre;
    cbn [echo_loop first_failure].
  - cbn. by rewrite app_nil_r.
  - by apply ws_except_ends.
  - pose proof (ws_except_ends close_raises e
                  (pre ++ [WsReceived data; WsSendText ("echo: " ++ data)%string false]))
      as Hends.
    destruct (ws_except close_raises e) as [tr st]. cbn [fst snd] in *.
    rewrite <- app_assoc in Hends. apply Hends.
    rewrite elem_of_app. intros [H|H]; [done|].
    by repeat (apply elem_of_cons in H as [H|H]; [done|]); apply elem_of_nil in H.
  - specialize (IH (pre ++ [WsReceived data; WsSendText ("echo: " ++ data)%string true])).
    destruct (echo_loop close_raises rest) as [tr st]. cbn [fst snd] in *.
    rewrite <- app_assoc in IH. apply IH.
    rewrite elem_of_app. intros [H|H]; [done|].
    by repeat (apply elem_of_cons in H as [H|H]; [done|]); apply elem_of_nil in H.
Qed.

(** X4. How [ws_echo] ends.  When [accept] raises, its exception leaves
    the handler and nothing else is called.  Otherwise, as long as no
    call raises the handler goes on waiting and never calls [close]; when
    [receive_text] or [send_text] raises an [Exception], [close] is
    called exactly once, as the last action, and the handler ends, or is
    left by the exception of [close] if it raises; when they raise an
    exception that is not an [Exception], that exception leaves the
    handler and [close] is not called. *)
Theorem ws_echo_closes_last (accept_raises close_raises : option exn)
    (script : list turn) :
  let tr := fst (ws_echo accept_raises close_raises script) in
  let st := snd (ws_echo accept_raises close_raises script) in
  match accept_raises with
  | Some e => tr = [WsAccept] /\ st = Propagated e
  | None =>
      match first_failure script with
      | None => (WsClose ∉ tr) /\ st = Waiting
      | Some e =>
          if is_Exception e then
            (exists tr0, tr = tr0 ++ [WsClose] /\ WsClose ∉ tr0) /\
            st = match close_raises with
                 | Some ce => Propagated ce
                 | None => Closed
                 end
          else (WsClose ∉ tr) /\ st = Propagated e
      end
  end.
Proof.
  unfold ws_echo. destruct accept_raises as [e|]; cbn zeta; [done|].
  assert (WsClose ∉ [WsAccept]) as Hpre.
  { intros H. apply elem_of_cons in H as [H|H]; [done|]. by apply elem_of_nil in H. }
  pose proof (echo_loop_ends close_raises script [WsAccept] Hpre) as Hends.
  destruct (echo_loop close_raises script) as [tr st]. cbn [fst snd] in *.
  exact Hends.
Qed.

End WsClose.

(** ** decorators.py: [retry], further *)

Section RetryFurther.
Import Py Decorators RetrySpec MoreStatements.

Section Loop.
Context {W A R : Type}.
Variables (io : handler_io) (func : @callable W A R) (times : Z)
  (delay : float) (args : A).
Hypothesis print_ok : forall attempt, print_raises io attempt = None.
Hypothesis sleep_ok : forall attempt, sleep_raises io attempt = None.

Lemma retry_loop_sleeps (n : nat) :
  forall (attempt : Z) (last_exc : option exn) (w : W),
    let run := retry_loop io func times delay args n attempt last_exc w in
    (forall r, result_of run = Return r ->
       calls (trace_of run) = S (sleeps (trace_of run))) /\
    ((forall j, (j < n)%nat ->
        raises_Exception (fst (nth_call func args j w)) = true) ->
     sleeps (trace_of run) = n).
Proof.
  induction n as [|n IH]; intros attempt last_exc w; cbn zeta.
  - cbn. split; [discriminate|done].
  - cbn [retry_loop].
    destruct (func args w) as [o w1] eqn:Hcall.
    assert (nth_call func args 0 w = (o, w1)) as H0 by exact Hcall.
    assert (forall k, nth_call func args (S k) w = nth_call func args k w1) as HS.
    { intros k. unfold nth_call. cbn [state_before]. by rewrite Hcall. }
    destruct o as [r|e]; [|destruct (is_Exception e) eqn:He].
    + cbn. split; [done|]. intros Hall.
      specialize (Hall 0%nat ltac:(lia)). rewrite H0 in Hall. done.
    + rewrite print_ok, sleep_ok.
      specialize (IH (attempt + 1) (Some e) w1).
      destruct (retry_loop io func times delay args n (attempt + 1) (Some e) w1)
        as [[o' w'] tr]. cbn in IH |- *. destruct IH as [IHret IHall]. split.
      * intros r ->. by rewrite (IHret r).
      * intros Hall. f_equal. apply IHall. intros j Hj.
        rewrite <- HS. apply Hall. lia.
    + cbn. split; [discriminate|]. intros Hall.
      specialize (Hall 0%nat ltac:(lia)). rewrite H0 in Hall.
      cbn in Hall. congruence.
Qed.

End Loop.

(** X5. As long as neither printing the line of a failed attempt nor
    [time.sleep(delay)] raises, the wrapper sleeps once after every
    failed call, the last one included: when it returns a result it has
    slept one time less than it called the function, and when all
    [times] calls raise an [Exception] it has slept [times] times before
    it re-raises. *)
Theorem retry_sleeps_after_each_failure {W A R : Type} (io : handler_io)
    (func : @callable W A R) (times : Z) (delay : float) (args : A) (w : W) :
  (forall attempt, print_raises io attempt = None) ->
  (forall attempt, sleep_raises io attempt = None) ->
  let run := retry io times delay func args w in
  (forall r, result_of run = Return r ->
     calls (trace_of run) = S (sleeps (trace_of run))) /\
  ((forall j, Z.of_nat j < times ->
      raises_Exception (fst (nth_call func args j w)) = true) ->
   Z.of_nat (sleeps (trace_of run)) = Z.max 0 times).
Proof.
  intros Hprint Hsleep. cbn zeta. unfold retry.
  destruct (retry_loop_sleeps io func times delay args Hprint Hsleep
              (Z.to_nat times) 1 None w) as [Hret Hall].
  split; [exact Hret|]. intros Hraise. rewrite Hall; [lia|].
  intros j Hj. apply Hraise. lia.
Qed.

Lemma retry_sleeps_after_each_failure_witness :
  (forall attempt, print_raises quiet_io attempt = None) /\
  (forall attempt, sleep_raises quiet_io attempt = None) /\
  Z.of_nat (sleeps (trace_of (retry quiet_io 2 0.125 always_fails tt 0%nat)))
  = Z.max 0 2.
Proof.
  split; [reflexivity|]. split; [reflexivity|].
  apply (retry_sleeps_after_each_failure quiet_io always_fails 2 0.125 tt 0%nat
           (fun _ => eq_refl) (fun _ => eq_refl)).
  intros j Hj. reflexivity.
Defined.

(** X6. With [times <= 0] the wrapper never calls the function: the loop
    is empty and [raise last_exc] raises [None], a [TypeError]. *)
Theorem retry_nonpositive_times {W A R : Type} (io : handler_io)
    (func : @callable W A R) (times : Z) (delay : float) (args : A) (w : W) :
  times <= 0 ->
  retry io times delay func args w
  = (Raise (TypeError "exceptions must derive from BaseException"), w, []).
Proof.
  intros Htimes. unfold retry.
  replace (Z.to_nat times) with 0%nat by lia. reflexivity.
Qed.

Lemma retry_nonpositive_times_witness :
  -2 <= 0 /\
  retry quiet_io (-2) 0.125 fails_once tt 0%nat
  = (Raise (TypeError "exceptions must derive from BaseException"), 0%nat, []).
Proof.
  split; [lia|].
  apply (retry_nonpositive_times quiet_io fails_once (-2) 0.125 tt 0%nat).
  lia.
Defined.

(** X7. With [times >= 1], an exception raised inside the handler after
    the first failed call leaves the wrapper at once, in place of the
    exception of the function, which is not called again: the exception
    of [print] when printing the line raises, and otherwise the exception
    of [time.sleep] when it raises, as it does for a negative or NaN
    delay.  A first call that returns is returned without printing or
    sleeping. *)
Theorem retry_handler_raises {W A R : Type} (io : handler_io)
    (func : @callable W A R) (times : Z) (delay : float) (args : A) (w : W) :
  1 <= times ->
  let run := retry io times delay func args w in
  (forall r, fst (func args w) = Return r ->
     result_of run = Return r /\ trace_of run = [EvCall]) /\
  (forall pe,
     raises_Exception (fst (func args w)) = true ->
     print_raises io 1 = Some pe ->
     result_of run = Raise pe /\ state_of run = snd (func args w) /\
     calls (trace_of run) = 1%nat /\ sleeps (trace_of run) = 0%nat) /\
  (forall se,
     raises_Exception (fst (func args w)) = true ->
     print_raises io 1 = None ->
     sleep_raises io 1 = Some se ->
     result_of run = Raise se /\ state_of run = snd (func args w) /\
     calls (trace_of run) = 1%nat).
Proof.
  intros Htimes. cbn zeta. unfold retry.
  destruct (Z.to_nat times) as [|n] eqn:Hn; [lia|]. cbn [retry_loop].
  destruct (func args w) as [[r|e] w1]; cbn [fst snd raises_Exception].
  - split; [by intros r' [= <-]|]. split; intros; discriminate.
  - split; [discriminate|]. split.
    + intros pe -> ->. done.
    + intros se -> -> ->. done.
Qed.

Lemma retry_handler_raises_witness :
  1 <= 3 /\
  result_of (retry sleep_rejects_io 3 (-1) fails_once tt 0%nat)
  = Raise (ValueError "sleep length must be non-negative").
Proof.
  split; [lia|].
  destruct (retry_handler_raises sleep_rejects_io fails_once 3 (-1) tt 0%nat
              ltac:(lia)) as (_ & _ & Hsleep).
  apply (Hsleep (ValueError "sleep length must be non-negative")); reflexivity.
Defined.

End RetryFurther.

(** ** oop.py: [Vec2] with integer components *)

Section Vec2Int.
Import Oop.

(** X8. On vectors with [int] components, as in [demo], addition is
    associative and commutative, and scalar multiplication distributes
    over the addition of vectors and of scalars and composes as the
    product of the scalars. *)
Theorem Vec2_int_algebra (a b c : Vec2 Z) (s t : Z) :
  add (add a b) c = add a (add b c) /\
  add a b = add b a /\
  mul (add a b) s = add (mul a s) (mul b s) /\
  mul a (s + t) = add (mul a s) (mul a t) /\
  mul (mul a s) t = mul a (s * t).
Proof.
  destruct a as [ax ay], b as [bx by_], c as [cx cy].
  unfold add, mul; cbn. repeat split; f_equal; lia.
Qed.

End Vec2Int.

(** ** regex.py: the sanitizing substitution, further *)

Section SanitizerFurther.
Import Py Regex Statements.

Lemma allowed_hyphen : allowed "-" = true.
Proof. vm_compute. reflexivity. Qed.

Lemma sanitize_all_allowed (s : string) : all_chars allowed (sanitize s) = true.
Proof.
  induction s as [|c s IH]; [reflexivity|].
  rewrite sanitize_cons. cbn [all_chars]. rewrite IH, andb_true_r.
  destruct (allowed c) eqn:Hc; [exact Hc|exact allowed_hyphen].
Qed.

Lemma sanitize_allowed_id (s : string) :
  all_chars allowed s = true -> sanitize s = s.
Proof.
  induction s as [|c s IH]; [reflexivity|]. cbn [all_chars].
  intros [Hc Hs]%andb_true_iff. by rewrite sanitize_cons, Hc, IH.
Qed.

(** X9. The sanitized string holds allowed characters only; a string of
    allowed characters is left as it is, so sanitizing twice gives the
    same as sanitizing once. *)
Theorem sanitize_idempotent (s : string) :
  all_chars allowed (sanitize s) = true /\
  (all_chars allowed s = true -> sanitize s = s) /\
  sanitize (sanitize s) = sanitize s.
Proof.
  split; [apply sanitize_all_allowed|]. split; [apply sanitize_allowed_id|].
  apply sanitize_allowed_id, sanitize_all_allowed.
Qed.

End SanitizerFurther.

(** ** builtin_functions.py: [sorted], further *)

Section SortedFurther.
Import Py BuiltinFunctions.

Lemma descending_unique (l1 l2 : list Z) :
  Sorted (flip Z.le) l1 -> Sorted (flip Z.le) l2 -> l1 ≡ₚ l2 -> l1 = l2.
Proof.
  intros H1 H2 Hp.
  assert (Transitive (flip Z.le)) by (intros a b c; unfold flip; lia).
  apply (Sorted_unique_strong (flip Z.le)); try done.
  intros a b _ _. unfold flip. lia.
Qed.

(** X10. The descending sort depends on the elements only, not on their
    order in the input: two lists with the same elements, however
    arranged, sort to the same list.  It is the reverse of the ascending
    sort, and sorting a second time changes nothing. *)
Theorem sorted_desc_canonical (l : list Z) :
  (forall l' : list Z, Permutation l l' -> sorted_desc l = sorted_desc l') /\
  sorted_desc l = List.rev (sorted l false) /\
  sorted_desc (sorted_desc l) = sorted_desc l.
Proof.
  split; [|split].
  - intros l' Hp. apply descending_unique; try apply sorted_desc_Sorted.
    rewrite !sorted_desc_Permutation. exact Hp.
  - apply descending_unique; [apply sorted_desc_Sorted| |].
    + unfold sorted. rewrite rev_alt.
      apply Sorted_reverse, Sorted_merge_sort. apply _.
    + rewrite sorted_desc_Permutation. unfold sorted.
      rewrite <- Permutation_rev. by rewrite merge_sort_Permutation.
  - apply descending_unique; try apply sorted_desc_Sorted.
    apply sorted_desc_Permutation.
Qed.

End SortedFurther.

(** ** context_manager.py: [open_read] *)

Section OpenRead.
Import Py Files ContextManager MoreStatements.

(** Opening and then reading is what [read_text] does in one call. *)
Lemma open_then_read (fs : filesystem) (path : string) :
  read_text fs path =
    match open_for_reading fs path with
    | Some e => Raise e
    | None => file_read fs path
    end.
Proof.
  unfold read_text, open_for_reading, file_read.
  by destruct (fs path).
Qed.

(** X11. [with open_read(path) as content: body(content)] closes the file
    as often as it opened it, whether the body returns or raises and also
    when reading fails; the body runs exactly when the file can be read,
    between [open] and [close], on the text [read_text] gives, and its
    result or exception is that of the whole statement; otherwise the
    statement raises what [read_text] raises and the body does not run. *)
Theorem with_open_read_closes {W R : Type} (fs : filesystem) (path : string)
    (body : string -> W -> outcome R * W) (w : W) :
  let run := with_open_read fs path body w in
  opened (snd run) = closed (snd run) /\
  (forall text, read_text fs path = Return text ->
     fst run = body text w /\ snd run = [IoOpen path; IoBody; IoClose path]) /\
  (forall e, read_text fs path = Raise e ->
     fst run = (Raise e, w) /\ IoBody ∉ snd run).
Proof.
  cbn zeta. rewrite open_then_read. unfold with_open_read.
  destruct (open_for_reading fs path) as [e|].
  - cbn. split; [done|]. split; [done|].
    intros e' [= <-]. split; [done|apply not_elem_of_nil].
  - destruct (file_read fs path) as [text|e].
    + destruct (body text w) as [o w'] eqn:Hbody. cbn.
      split; [done|]. split; [|done].
      intros text' [= <-]. by rewrite Hbody.
    + cbn. split; [done|]. split; [done|].
      intros e' [= <-]. split; [done|]. intros H.
      by repeat (apply elem_of_cons in H as [H|H]; [done|]);
        apply elem_of_nil in H.
Qed.

End OpenRead.

(** ** fastapi.py: [simple_cache] *)

Section SimpleCacheFacts.
Import Py Fastapi MoreStatements.
Context {A X V W : Type} `{Countable A, Countable X}.
Implicit Types (func : A -> list (string * X) -> W -> outcome V * W).
Implicit Types (cache : gmap (A * list (string * X)) V) (w : W).

(** A call of the wrapper keeps every entry of the cache. *)
Lemma simple_cache_keeps_entries func args kwargs cache w key v :
  cache !! key = Some v ->
  (simple_cache func args kwargs cache w).1.1.2 !! key = Some v.
Proof.
  intros Hkey. unfold simple_cache.
  destruct (cache !! cache_key args kwargs) as [val|] eqn:E; [done|].
  destruct (func args kwargs w) as [[val|e] w']; [|done].
  cbn. rewrite lookup_insert_ne; [done|]. intros <-. congruence.
Qed.

Lemma cache_after_keeps_entries func calls cache w key v :
  cache !! key = Some v ->
  (cache_after func calls cache w).1 !! key = Some v.
Proof.
  revert cache w. induction calls as [|[args kwargs] calls IH];
    intros cache w Hkey; cbn [cache_after]; [done|].
  pose proof (simple_cache_keeps_entries func args kwargs cache w key v Hkey) as Hk.
  destruct (simple_cache func args kwargs cache w) as [[[o cache'] w'] ev].
  by apply IH.
Qed.

(** A call that returns leaves its result in the cache. *)
Lemma simple_cache_stores_result func args kwargs cache w v :
  (simple_cache func args kwargs cache w).1.1.1 = Return v ->
  (simple_cache func args kwargs cache w).1.1.2 !! cache_key args kwargs = Some v.
Proof.
  unfold simple_cache.
  destruct (cache !! cache_key args kwargs) as [val|] eqn:E.
  - cbn. by intros [= <-].
  - destruct (func args kwargs w) as [[val|e] w']; cbn; [|done].
    intros [= <-]. apply lookup_insert_eq.
Qed.

(** X12. Once a call of the cached function has returned [v] for some
    arguments, every later call with these arguments, after any other
    calls, answers [v] from the cache: the decorated function is not
    called, and neither the cache nor the state changes, whatever the
    function would answer by then. *)
Theorem simple_cache_answer_is_kept func args kwargs cache w v
    (calls : list (A * list (string * X))) :
  (simple_cache func args kwargs cache w).1.1.1 = Return v ->
  let st := cache_after func ((args, kwargs) :: calls) cache w in
  simple_cache func args kwargs st.1 st.2 = (Return v, st.1, st.2, [CacheHit]).
Proof.
  intros Hret. cbn zeta. cbn [cache_after].
  pose proof (simple_cache_stores_result func args kwargs cache w v Hret) as Hkey.
  destruct (simple_cache func args kwargs cache w) as [[[o cache'] w'] ev].
  cbn in Hkey.
  pose proof (cache_after_keeps_entries func calls cache' w' _ v Hkey) as Hlater.
  destruct (cache_after func calls cache' w') as [cache2 w2]. cbn in Hlater |- *.
  unfold simple_cache. by rewrite Hlater.
Qed.

(** Two items of a dictionary with the same name are the same item. *)
Lemma NoDup_fst_eq (l : list (string * X)) (a b : string * X) :
  NoDup l.*1 -> a ∈ l -> b ∈ l -> a.1 = b.1 -> a = b.
Proof.
  induction l as [|c l IH]; cbn; intros Hnd Ha Hb Hab.
  - by apply elem_of_nil in Ha.
  - apply NoDup_cons in Hnd as [Hc Hnd].
    apply elem_of_cons in Ha as [->|Ha]; apply elem_of_cons in Hb as [->|Hb].
    + done.
    + exfalso. apply Hc. rewrite Hab. apply list_elem_of_fmap. eauto.
    + exfalso. apply Hc. rewrite <- Hab. apply list_elem_of_fmap. eauto.
    + by apply IH.
Qed.

Lemma sorted_items_Sorted (kwargs : list (string * X)) :
  Sorted (fun a b => String.le a.1 b.1) (sorted_items kwargs).
Proof.
  unfold sorted_items. apply Sorted_merge_sort.
  intros a b. destruct (total String.le a.1 b.1); auto.
Qed.

(** The key does not depend on the order in which the keyword arguments
    were written. *)
Lemma cache_key_permutation (args : A) (kwargs kwargs' : list (string * X)) :
  NoDup kwargs.*1 -> kwargs ≡ₚ kwargs' ->
  cache_key args kwargs = cache_key args kwargs'.
Proof.
  intros Hnd Hp. unfold cache_key. f_equal.
  assert (Transitive (fun a b : string * X => String.le a.1 b.1)) as Htrans.
  { intros a b c Hab Hbc. by etrans. }
  apply (Sorted_unique_strong (fun a b => String.le a.1 b.1));
    try apply sorted_items_Sorted.
  - intros a b Ha Hb Hab Hba.
    unfold sorted_items in Ha, Hb. rewrite merge_sort_Permutation in Ha, Hb.
    rewrite <- Hp in Hb.
    apply (NoDup_fst_eq kwargs); try done. by apply (anti_symm String.le).
  - unfold sorted_items. by rewrite !merge_sort_Permutation.
Qed.

(** X13. The cache does not tell apart two calls that give the same
    keyword arguments in a different order: after a call that returned
    [v], a call with the keyword arguments rearranged is answered [v] from
    the cache without calling the function. *)
Theorem simple_cache_ignores_keyword_order func args kwargs kwargs' cache w v :
  NoDup kwargs.*1 ->
  kwargs ≡ₚ kwargs' ->
  (simple_cache func args kwargs cache w).1.1.1 = Return v ->
  let st := cache_after func [(args, kwargs)] cache w in
  simple_cache func args kwargs' st.1 st.2 = (Return v, st.1, st.2, [CacheHit]).
Proof.
  intros Hnd Hp Hret. cbn zeta. cbn [cache_after].
  pose proof (simple_cache_stores_result func args kwargs cache w v Hret) as Hkey.
  destruct (simple_cache func args kwargs cache w) as [[[o cache'] w'] ev].
  cbn in Hkey |- *. unfold simple_cache.
  by rewrite <- (cache_key_permutation args kwargs kwargs' Hnd Hp), Hkey.
Qed.

End SimpleCacheFacts.

Section SimpleCacheWitnesses.
Import Py Fastapi MoreStatements.

Lemma simple_cache_answer_is_kept_witness :
  (simple_cache call_counter 5 [] ∅ 0%nat).1.1.1 = Return 0 /\
  simple_cache call_counter 5 []
    (cache_after call_counter [(5, []); (6, [])] ∅ 0%nat).1
    (cache_after call_counter [(5, []); (6, [])] ∅ 0%nat).2
  = (Return 0,
     (cache_after call_counter [(5, []); (6, [])] ∅ 0%nat).1,
     (cache_after call_counter [(5, []); (6, [])] ∅ 0%nat).2, [CacheHit]).
Proof.
  split; [reflexivity|].
  apply (simple_cache_answer_is_kept call_counter 5 [] ∅ 0%nat 0 [(6, [])]).
  reflexivity.
Defined.

Lemma simple_cache_ignores_keyword_order_witness :
  NoDup [("a", 1); ("b", 2)].*1 /\
  [("a", 1); ("b", 2)] ≡ₚ [("b", 2); ("a", 1)] /\
  (simple_cache call_counter 5 [("a", 1); ("b", 2)] ∅ 0%nat).1.1.1 = Return 0 /\
  (simple_cache call_counter 5 [("b", 2); ("a", 1)]
     (cache_after call_counter [(5, [("a", 1); ("b", 2)])] ∅ 0%nat).1
     (cache_after call_counter [(5, [("a", 1); ("b", 2)])] ∅ 0%nat).2).1.1.1
  = Return 0.
Proof.
  assert (NoDup [("a", 1); ("b", 2)].*1) as Hnd.
  { cbn. apply NoDup_cons. split.
    - intros Hin. apply elem_of_cons in Hin as [Hin|Hin]; [discriminate|].
      by apply elem_of_nil in Hin.
    - apply NoDup_singleton. }
  assert ([("a", 1); ("b", 2)] ≡ₚ [("b", 2); ("a", 1)]) as Hp by apply perm_swap.
  assert ((simple_cache call_counter 5 [("a", 1); ("b", 2)] ∅ 0%nat).1.1.1
          = Return 0) as Hret by reflexivity.
  split; [exact Hnd|]. split; [exact Hp|]. split; [exact Hret|].
  rewrite (simple_cache_ignores_keyword_order call_counter 5
             [("a", 1); ("b", 2)] [("b", 2); ("a", 1)] ∅ 0%nat 0 Hnd Hp Hret).
  reflexivity.
Defined.

End SimpleCacheWitnesses.

(** ** fastapi.py: [builtin_stats], further *)

Section BuiltinStatsFurther.
Import Py Fastapi Statements.

Local Open Scope string_scope.

Lemma lstrip_with_prefix (p : ascii -> bool) (s : string) :
  exists l, s = l ++ lstrip_with p s /\ all_chars p l = true.
Proof.
  induction s as [|c s (l & Hl & Hp)]; cbn [lstrip_with].
  - by exists "".
  - destruct (p c) eqn:Hc.
    + exists (String c l). rewrite append_cons, <- Hl. cbn. by rewrite Hc, Hp.
    + by exists "".
Qed.

Lemma rstrip_with_suffix (p : ascii -> bool) (s : string) :
  exists r, s = rstrip_with p s ++ r /\ all_chars p r = true.
Proof.
  induction s as [|c s (r & Hr & Hp)]; cbn [rstrip_with].
  - by exists "".
  - destruct (rstrip_with p s) as [|c' s'] eqn:E.
    + rewrite append_nil_l in Hr. subst r. destruct (p c) eqn:Hc.
      * exists (String c s). cbn. by rewrite Hc, Hp.
      * exists s. by rewrite append_cons, append_nil_l.
    + exists r. by rewrite append_cons, <- Hr.
Qed.

Lemma split_sign_cases (body ds : string) (neg : bool) :
  split_sign body = (neg, ds) ->
  (body = String "-" ds /\ neg = true) \/
  (body = String "+" ds /\ neg = false) \/
  (body = ds /\ neg = false).
Proof.
  destruct body as [|c r]; [intros [= <- <-]; auto|].
  destruct c as [[] [] [] [] [] [] [] []]; cbn; intros [= <- <-]; auto.
Qed.

(** What [scan_digits] reads to the end is a run of digits, read to its
    value. *)
Lemma scan_digits_accepts (s : string) :
  forall (acc : Z) (count : N) (prev : bool) (v : Z) (n : N),
    scan_digits acc count prev s = Some (v, n, "") ->
    (s = "" /\ prev = true /\ v = acc) \/
    (exists ds, Digits s ds /\ v = fold_left (fun a d => 10 * a + d) ds acc) \/
    (prev = true /\ exists s' ds,
        s = String "_" s' /\ Digits s' ds /\
        v = fold_left (fun a d => 10 * a + d) ds acc).
Proof.
  induction s as [|c s IH]; intros acc count prev v n; cbn [scan_digits].
  - destruct prev; [|discriminate]. intros [= <- _]. by left.
  - destruct (digit_of c) as [d|] eqn:Hc.
    + intros Hp. right; left.
      destruct (IH _ _ _ _ _ Hp)
        as [(-> & _ & ->)|[(ds & Hds & ->)|(_ & s' & ds & -> & Hds & ->)]].
      * exists [d]. split; [by constructor|done].
      * exists (d :: ds). split; [by constructor|done].
      * exists (d :: ds). split; [by constructor|done].
    + destruct (Ascii.eqb c "_") eqn:Hu; [|by destruct prev].
      apply Ascii.eqb_eq in Hu as ->.
      destruct prev; [|discriminate]. intros Hp. right; right.
      split; [done|].
      destruct (IH _ _ _ _ _ Hp) as [(_ & [=] & _)|[(ds & Hds & ->)|([=] & _)]].
      by exists s, ds.
Qed.

(** The digits [scan_digits] counts are the digits of what it reads. *)
Lemma scan_digits_count (s : string) :
  forall (acc : Z) (count : N) (prev : bool) (v : Z) (n : N),
    scan_digits acc count prev s = Some (v, n, "") ->
    n = (count + digit_count s)%N.
Proof.
  induction s as [|c s IH]; intros acc count prev v n;
    cbn [scan_digits digit_count].
  - destruct prev; [|discriminate]. intros [= _ <-]. lia.
  - destruct (digit_of c) as [d|] eqn:Hc.
    + intros Hp. apply IH in Hp. lia.
    + destruct (Ascii.eqb c "_"); [|by destruct prev].
      destruct prev; [|discriminate]. intros Hp. apply IH in Hp. lia.
Qed.

Lemma split_sign_digit_count (body ds : string) (neg : bool) :
  split_sign body = (neg, ds) -> digit_count body = digit_count ds.
Proof.
  intros H. by destruct (split_sign_cases _ _ _ H) as [[-> _]|[[-> _]|[-> _]]].
Qed.

(** [int] returns a number only for a literal with whitespace around it
    whose digits are within the limit. *)
Lemma int_accepts (max_str_digits : N) (s : string) (n : Z) :
  int max_str_digits s = Return n ->
  integer_segment s n /\ exceeds_limit max_str_digits (digit_count s) = false.
Proof.
  unfold int.
  destruct (lstrip_with_prefix int_isspace s) as (l & Hl & Hlsp).
  destruct (rstrip_with_suffix int_isspace (lstrip_with int_isspace s))
    as (r & Hr & Hrsp).
  set (body := rstrip_with int_isspace (lstrip_with int_isspace s)) in *.
  destruct (split_sign body) as [neg ds] eqn:Hsign.
  destruct (scan_digits 0 0 false ds) as [[[v count] rest]|] eqn:Hp;
    [|discriminate].
  destruct (exceeds_limit max_str_digits count) eqn:Hlim; [discriminate|].
  destruct rest; [|discriminate]. intros [= <-].
  pose proof (scan_digits_count _ _ _ _ _ _ Hp) as Hcount.
  rewrite N.add_0_l in Hcount. split.
  - exists l, body, r.
    split; [by rewrite <- Hr|]. split; [done|]. split; [done|].
    destruct (scan_digits_accepts _ _ _ _ _ _ Hp)
      as [(_ & [=] & _)|[(dl & Hdl & ->)|([=] & _)]].
    destruct (split_sign_cases _ _ _ Hsign) as [[-> ->]|[[-> ->]|[-> ->]]];
      by constructor.
  - rewrite Hl, Hr, !digit_count_app, (digit_count_space l Hlsp),
      (digit_count_space r Hrsp), N.add_0_l, N.add_0_r,
      (split_sign_digit_count _ _ _ Hsign), <- Hcount.
    exact Hlim.
Qed.

Lemma int_raises (max_str_digits : N) (s : string) (e : exn) :
  int max_str_digits s = Raise e -> int_error e.
Proof.
  unfold int, int_error. destruct (split_sign _) as [neg ds].
  destruct (scan_digits 0 0 false ds) as [[[v count] rest]|];
    [|intros [= <-]; by left].
  destruct (exceeds_limit max_str_digits count); [intros [= <-]; by right|].
  destruct rest; [discriminate|]. intros [= <-]. by left.
Qed.

Lemma int_of_nonblank_accepts (max_str_digits : N) (segs : list string) :
  forall nums, int_of_nonblank max_str_digits segs = Return nums ->
    Forall2 integer_segment (nonblank_segments segs) nums /\
    Forall (fun seg => exceeds_limit max_str_digits (digit_count seg) = false)
      (nonblank_segments segs).
Proof.
  unfold nonblank_segments.
  induction segs as [|seg segs IH]; intros nums; cbn [int_of_nonblank List.filter].
  - intros [= <-]. split; constructor.
  - rewrite strip_truthy. destruct (negb (blank seg)); [|apply IH].
    destruct (int max_str_digits seg) as [n|e] eqn:Hn; [|discriminate]. cbn.
    destruct (int_of_nonblank max_str_digits segs) as [ns|e] eqn:Hns;
      [|discriminate]. cbn.
    intros [= <-]. apply int_accepts in Hn as [Hseg Hlim].
    destruct (IH ns eq_refl) as [Hsegs Hlims].
    split; by constructor.
Qed.

Lemma int_of_nonblank_raises (max_str_digits : N) (segs : list string) (e : exn) :
  int_of_nonblank max_str_digits segs = Raise e -> int_error e.
Proof.
  induction segs as [|seg segs IH]; cbn [int_of_nonblank]; [discriminate|].
  destruct (str_truthy (strip seg)); [|exact IH].
  destruct (int max_str_digits seg) as [n|e'] eqn:Hn; cbn.
  - destruct (int_of_nonblank max_str_digits segs) as [ns|e'']; cbn;
      [discriminate|].
    intros [= <-]. by apply IH.
  - intros [= <-]. by apply int_raises in Hn.
Qed.

Lemma builtin_stats_unfold (max_str_digits : N) (values : string) :
  builtin_stats max_str_digits values =
    match int_of_nonblank max_str_digits (split "," values) with
    | Raise e => Raise e
    | Return [] =>
        Return [("count", VInt 0); ("sum", VInt 0); ("min", VNone); ("max", VNone)]
    | Return (n :: ns) =>
        Return [("count", VInt (len (n :: ns))); ("sum", VInt (sum (n :: ns)));
                ("min", VInt (fold_left Z.min ns n));
                ("max", VInt (fold_left Z.max ns n))]
    end.
Proof.
  unfold builtin_stats.
  by destruct (int_of_nonblank max_str_digits (split "," values)) as [[|n ns]|e].
Qed.

(** X14. [builtin_stats] answers exactly when every non-blank segment of
    its input is a decimal integer literal, with the whitespace [int]
    skips around it, whose number of digits is within the interpreter's
    limit; otherwise it raises one of the two [ValueError]s of [int], for
    an invalid literal or for too many digits, and it never raises
    anything else (in particular not on an empty input). *)
Theorem builtin_stats_returns_iff (max_str_digits : N) (values : string) :
  ((exists d, builtin_stats max_str_digits values = Return d) <->
   (exists nums,
      Forall2 integer_segment (nonblank_segments (split "," values)) nums) /\
   Forall (fun seg => exceeds_limit max_str_digits (digit_count seg) = false)
     (nonblank_segments (split "," values))) /\
  (forall e, builtin_stats max_str_digits values = Raise e ->
     (e = ValueError "invalid literal for int() with base 10" \/
      e = ValueError "Exceeds the limit for integer string conversion") /\
     ~ ((exists nums,
           Forall2 integer_segment (nonblank_segments (split "," values)) nums) /\
        Forall (fun seg => exceeds_limit max_str_digits (digit_count seg) = false)
          (nonblank_segments (split "," values)))).
Proof.
  rewrite builtin_stats_unfold. split; [split|].
  - intros [d Hd].
    destruct (int_of_nonblank max_str_digits (split "," values))
      as [nums|e] eqn:E; [|discriminate].
    apply int_of_nonblank_accepts in E as [Hsegs Hlims]. eauto.
  - intros [[nums Hnums] Hlims].
    rewrite (int_of_nonblank_integers _ _ _ Hnums Hlims). destruct nums; eauto.
  - intros e.
    destruct (int_of_nonblank max_str_digits (split "," values))
      as [[|n ns]|e'] eqn:E; try discriminate.
    intros [= <-]. split; [by apply int_of_nonblank_raises in E|].
    intros [[nums Hnums] Hlims].
    rewrite (int_of_nonblank_integers _ _ _ Hnums Hlims) in E. discriminate.
Qed.

Lemma sum_bounds (l : list Z) (a b : Z) :
  (forall n, n ∈ l -> a <= n <= b) ->
  len l * a <= foldr Z.add 0 l <= len l * b.
Proof.
  unfold len. induction l as [|n l IH]; intros Hl; cbn [foldr length].
  - lia.
  - assert (a <= n <= b) by (apply Hl; left).
    assert (forall m, m ∈ l -> a <= m <= b) as Hl' by (intros m Hm; apply Hl; by right).
    specialize (IH Hl'). lia.
Qed.

(** X15. Whenever [builtin_stats] answers, the answer has the four keys
    [count], [sum], [min], [max] in this order; either [count] and [sum]
    are 0 and [min] and [max] are [None], or [count] is positive,
    [min <= max] and [count * min <= sum <= count * max]. *)
Theorem builtin_stats_answer_bounds (max_str_digits : N) (values : string)
    (d : dict) :
  builtin_stats max_str_digits values = Return d ->
  exists (n s : Z) (lo hi : value),
    d = [("count", VInt n); ("sum", VInt s); ("min", lo); ("max", hi)] /\
    ((n = 0 /\ s = 0 /\ lo = VNone /\ hi = VNone) \/
     (exists a b : Z,
        0 < n /\ lo = VInt a /\ hi = VInt b /\ a <= b /\
        n * a <= s <= n * b)).
Proof.
  rewrite builtin_stats_unfold.
  destruct (int_of_nonblank max_str_digits (split "," values)) as [[|m ms]|e];
    [| |discriminate].
  - intros [= <-]. exists 0, 0, VNone, VNone. split; [done|]. by left.
  - intros [= <-].
    exists (len (m :: ms)), (sum (m :: ms)),
      (VInt (fold_left Z.min ms m)), (VInt (fold_left Z.max ms m)).
    split; [done|]. right.
    exists (fold_left Z.min ms m), (fold_left Z.max ms m).
    destruct (fold_min_le ms m) as [Hmin Hmins].
    destruct (fold_max_ge ms m) as [Hmax Hmaxs].
    assert (forall k, k ∈ m :: ms ->
              fold_left Z.min ms m <= k <= fold_left Z.max ms m) as Hall.
    { intros k Hk. apply elem_of_cons in Hk as [->|Hk]; [lia|].
      split; auto. }
    pose proof (sum_bounds (m :: ms) _ _ Hall) as Hsum.
    unfold sum. rewrite sum_foldr, Z.add_0_l.
    split; [unfold len; cbn [length]; lia|].
    split; [done|]. split; [done|]. split; [lia|exact Hsum].
Qed.

Lemma builtin_stats_answer_bounds_witness :
  builtin_stats default_max_str_digits "1, 2,,3"
  = Return [("count", VInt 3); ("sum", VInt 6); ("min", VInt 1); ("max", VInt 3)] /\
  exists (n s : Z) (lo hi : value),
    [("count", VInt 3); ("sum", VInt 6); ("min", VInt 1); ("max", VInt 3)]
    = [("count", VInt n); ("sum", VInt s); ("min", lo); ("max", hi)].
Proof.
  assert (builtin_stats default_max_str_digits "1, 2,,3"
          = Return [("count", VInt 3); ("sum", VInt 6); ("min", VInt 1);
                    ("max", VInt 3)]) as Hret by (vm_compute; reflexivity).
  split; [exact Hret|].
  destruct (builtin_stats_answer_bounds _ _ _ Hret) as (n & s & lo & hi & Hd & _).
  by exists n, s, lo, hi.
Defined.

End BuiltinStatsFurther.

(** ** regex.py and fastapi.py: the runs of a class *)

Section Runs.
Import Py Regex Fastapi Statements MoreStatements.

Local Open Scope string_scope.

Lemma weave_cons_char (c : ascii) (g : string) (gs rs : list string) :
  weave (String c g :: gs) rs = String c (weave (g :: gs) rs).
Proof. by destruct rs. Qed.

(** What [scan_runs] returns: the run [s] starts with, and the later runs
    with the gaps around them. *)
Lemma scan_runs_spec (cls : ascii -> bool) (s : string) :
  all_chars cls (scan_runs cls s).1 = true /\
  exists gaps : list string,
    length gaps = S (length (scan_runs cls s).2) /\
    s = (scan_runs cls s).1 ++ weave gaps (scan_runs cls s).2 /\
    Forall (fun g => all_chars (fun c => negb (cls c)) g = true) gaps /\
    Forall (fun r => r <> "" /\ all_chars cls r = true) (scan_runs cls s).2 /\
    forall (i : nat) (g : string),
      gaps !! i = Some g -> (i < length (scan_runs cls s).2)%nat -> g <> "".
Proof.
  induction s as [|c s (Hrun & gaps & Hlen & Hs & Hgaps & Hruns & Hinner)];
    cbn [scan_runs].
  - split; [done|]. exists [""]. repeat split; try done.
    + by repeat constructor.
    + cbn. intros i g _ Hi. lia.
  - destruct (scan_runs cls s) as [run later]. cbn [fst snd] in *.
    destruct (cls c) eqn:Hc; cbn [fst snd].
    + split; [cbn; by rewrite Hc, Hrun|].
      exists gaps. repeat split; try done. rewrite Hs at 1. reflexivity.
    + split; [done|].
      destruct gaps as [|g0 gs]; [discriminate|].
      destruct run as [|c' run'].
      * exists (String c g0 :: gs). repeat split; try done.
        -- rewrite Hs at 1. by destruct later.
        -- apply Forall_cons in Hgaps as [Hg0 Hgs].
           constructor; [cbn; by rewrite Hc, Hg0|done].
        -- intros [|i] g Hg Hi; cbn in Hg; [by injection Hg as <-|].
           by apply (Hinner (S i)).
      * exists (String c "" :: g0 :: gs). repeat split.
        -- cbn [length] in Hlen |- *. lia.
        -- rewrite Hs at 1. reflexivity.
        -- constructor; [cbn; by rewrite Hc|done].
        -- constructor; [done|done].
        -- intros [|i] g Hg Hi; cbn in Hg, Hi; [by injection Hg as <-|].
           apply (Hinner i); [done|lia].
Qed.

(** The matches of [cls+] in a text: the text is made of the matches and
    of gaps around them; no gap holds a character of the class, every
    match is a non-empty run of the class, and every gap between two
    matches is non-empty, so that the matches are the maximal runs. *)
Lemma findall_plus_spec (cls : ascii -> bool) (s : string) :
  exists gaps : list string,
    length gaps = S (length (findall_plus cls s)) /\
    s = weave gaps (findall_plus cls s) /\
    Forall (fun g => all_chars (fun c => negb (cls c)) g = true) gaps /\
    Forall (fun r => r <> "" /\ all_chars cls r = true) (findall_plus cls s) /\
    forall (i : nat) (g : string),
      gaps !! i = Some g -> (0 < i < length (findall_plus cls s))%nat -> g <> "".
Proof.
  unfold findall_plus.
  destruct (scan_runs_spec cls s) as (Hrun & gaps & Hlen & Hs & Hgaps & Hruns & Hinner).
  destruct (scan_runs cls s) as [[|c run] later]; cbn [fst snd] in *.
  - exists gaps. repeat split; try done.
    intros i g Hg [_ Hi]. by apply (Hinner i).
  - exists ("" :: gaps). repeat split.
    + cbn [length] in Hlen |- *. lia.
    + rewrite Hs at 1. by destruct gaps.
    + by constructor.
    + by constructor.
    + intros [|i] g Hg [Hi0 Hi]; [lia|]. cbn in Hg, Hi.
      apply (Hinner i); [done|lia].
Qed.

Example regex_numbers_sample :
  regex_numbers "The price is $123.45 for item-42." = ["123"; "45"; "42"].
Proof. vm_compute. reflexivity. Qed.

(** X16. The numbers [regex_numbers] finds (and [basic_examples] prints)
    are the maximal runs of decimal digits of the text, in order: the
    text is these runs with digit-free gaps before, between and after
    them, each run is non-empty and made of digits, and the gaps between
    two runs are non-empty. *)
Theorem regex_numbers_maximal_digit_runs (text : string) :
  find_numbers text = regex_numbers text /\
  exists gaps : list string,
    length gaps = S (length (regex_numbers text)) /\
    text = weave gaps (regex_numbers text) /\
    Forall (fun g => all_chars (fun c => negb (is_digit c)) g = true) gaps /\
    Forall (fun r => r <> "" /\ all_chars is_digit r = true) (regex_numbers text) /\
    forall (i : nat) (g : string),
      gaps !! i = Some g -> (0 < i < length (regex_numbers text))%nat -> g <> "".
Proof. split; [reflexivity|]. apply findall_plus_spec. Qed.

Lemma split_scan_spec (cls : ascii -> bool) (s : string) :
  exists seps : list string,
    length seps = length (split_scan cls s).2 /\
    s = weave ((split_scan cls s).1 :: (split_scan cls s).2) seps /\
    Forall (fun p => all_chars (fun c => negb (cls c)) p = true)
      ((split_scan cls s).1 :: (split_scan cls s).2) /\
    Forall (fun r => r <> "" /\ all_chars cls r = true) seps /\
    (forall (i : nat) (p : string),
        (split_scan cls s).2 !! i = Some p ->
        (S i < length (split_scan cls s).2)%nat -> p <> "") /\
    (starts_with cls s = true ->
       (split_scan cls s).1 = "" /\ (split_scan cls s).2 <> []) /\
    (starts_with cls s = false -> s <> "" -> (split_scan cls s).1 <> "").
Proof.
  induction s as [|c s (seps & Hlen & Hs & Hparts & Hseps & Hinner & Hsep & Hnosep)];
    cbn [split_scan].
  - exists []. repeat split; try done. by repeat constructor.
  - destruct (split_scan cls s) as [part later] eqn:E. cbn [fst snd] in *.
    cbn [starts_with]. destruct (cls c) eqn:Hc; cbn [fst snd].
    + destruct (starts_with cls s) eqn:Hstart.
      * destruct (Hsep eq_refl) as [-> Hne].
        destruct later as [|l0 ls]; [done|].
        destruct seps as [|sp0 sps]; [discriminate|].
        apply Forall_cons in Hseps as [[_ Hsp0] Hsps].
        exists (String c sp0 :: sps). repeat split; try done.
        -- rewrite Hs at 1. reflexivity.
        -- constructor; [|done]. split; [done|]. cbn. by rewrite Hc, Hsp0.
      * exists (String c "" :: seps). split; [cbn [length] in Hlen |- *; lia|].
        split; [rewrite Hs at 1; reflexivity|].
        split; [by constructor|].
        split; [constructor; [|done]; split; [done|]; cbn; by rewrite Hc|].
        split; [|done].
        intros [|i] p Hp Hi; cbn in Hp, Hi.
        -- injection Hp as <-. apply (Hnosep eq_refl).
           intros ->. cbn in E. injection E as <- <-. cbn in Hi. lia.
        -- apply (Hinner i); [done|lia].
    + exists seps. repeat split; try done.
      * rewrite Hs at 1. by destruct seps.
      * apply Forall_cons in Hparts as [Hpart Hlater].
        constructor; [cbn; by rewrite Hc, Hpart|done].
Qed.

Example split_parts_sample :
  split_parts "one,two;three four" = ["one"; "two"; "three"; "four"].
Proof. vm_compute. reflexivity. Qed.

(** X17. The parts [re.split(r"[,;\s]+", text)] gives: the text is these
    parts with non-empty runs of separators (commas, semicolons,
    whitespace) between them; no part holds a separator; there is at
    least one part, and only the first and the last part can be empty,
    which they are when the text starts or ends with a separator. *)
Theorem split_parts_between_separators (text : string) :
  exists seps : list string,
    length (split_parts text) = S (length seps) /\
    text = weave (split_parts text) seps /\
    Forall (fun p => all_chars (fun c => negb (is_separator c)) p = true)
      (split_parts text) /\
    Forall (fun r => r <> "" /\ all_chars is_separator r = true) seps /\
    forall (i : nat) (p : string),
      split_parts text !! i = Some p ->
      (0 < i)%nat -> (S i < length (split_parts text))%nat -> p <> "".
Proof.
  unfold split_parts, split_plus.
  destruct (split_scan_spec is_separator text)
    as (seps & Hlen & Hs & Hparts & Hseps & Hinner & _ & _).
  destruct (split_scan is_separator text) as [part later]. cbn [fst snd] in *.
  exists seps. repeat split; try done.
  - cbn [length] in Hlen |- *. lia.
  - intros [|i] p Hp Hi0 Hi; [lia|]. cbn in Hp, Hi.
    apply (Hinner i); [done|lia].
Qed.

End Runs.

(** ** regex.py: [email_validator] *)

Section EmailValidator.
Import Py Regex Statements MoreStatements.

Local Open Scope string_scope.

Lemma append_assoc (a b c : string) : (a ++ b) ++ c = a ++ b ++ c.
Proof. induction a as [|x a IH]; [done|]. by rewrite !append_cons, IH. Qed.

Lemma all_chars_app (p : ascii -> bool) (a b : string) :
  all_chars p (a ++ b) = all_chars p a && all_chars p b.
Proof.
  induction a as [|x a IH]; [done|].
  rewrite append_cons. cbn [all_chars]. by rewrite IH, andb_assoc.
Qed.

Lemma length_app (a b : string) :
  String.length (a ++ b) = (String.length a + String.length b)%nat.
Proof. induction a as [|x a IH]; [done|]. rewrite append_cons. cbn. by rewrite IH. Qed.

(** [cls*] then [k]: some prefix in the class, then what [k] accepts. *)
Lemma star_spec (cls : ascii -> bool) (k : string -> bool) (s : string) :
  star cls k s = true <->
  exists a b, s = a ++ b /\ all_chars cls a = true /\ k b = true.
Proof.
  induction s as [|c s IH]; cbn [star].
  - rewrite orb_false_r. split.
    + intros Hk. by exists "", "".
    + intros (a & b & Hs & _ & Hk). destruct a; [|discriminate].
      rewrite append_nil_l in Hs. by subst.
  - rewrite orb_true_iff, andb_true_iff, IH. split.
    + intros [Hk|[Hc (a & b & -> & Ha & Hk)]].
      * by exists "", (String c s).
      * exists (String c a), b. cbn. by rewrite Hc, Ha.
    + intros ([|x a] & b & Hs & Ha & Hk).
      * rewrite append_nil_l in Hs. subst. by left.
      * rewrite append_cons in Hs. injection Hs as <- ->.
        cbn in Ha. apply andb_true_iff in Ha as [Hx Ha]. right.
        split; [done|]. by exists a, b.
Qed.

(** [cls{n}] then [cls*] then [k]: at least [n] characters of the class,
    then what [k] accepts. *)
Lemma at_least_spec (cls : ascii -> bool) (n : nat) (k : string -> bool) :
  forall s,
    exactly cls n (star cls k) s = true <->
    exists a b, s = a ++ b /\ all_chars cls a = true /\
                (n <= String.length a)%nat /\ k b = true.
Proof.
  induction n as [|n IH]; intros s; cbn [exactly].
  - rewrite star_spec. split.
    + intros (a & b & ? & ? & ?). exists a, b. repeat split; try done. lia.
    + intros (a & b & ? & ? & _ & ?). by exists a, b.
  - destruct s as [|c s].
    + split; [done|]. intros ([|x a] & b & Hs & _ & Hlen & _); [cbn in Hlen; lia|].
      discriminate.
    + rewrite andb_true_iff, IH. split.
      * intros [Hc (a & b & -> & Ha & Hlen & Hk)].
        exists (String c a), b. cbn. rewrite Hc, Ha. repeat split; try done. lia.
      * intros ([|x a] & b & Hs & Ha & Hlen & Hk); [cbn in Hlen; lia|].
        rewrite append_cons in Hs. injection Hs as <- ->.
        cbn in Ha, Hlen. apply andb_true_iff in Ha as [Hx Ha].
        split; [done|]. exists a, b. repeat split; try done. lia.
Qed.

(** One given character then [k]. *)
Lemma literal_spec (c : ascii) (k : string -> bool) (s : string) :
  exactly (Ascii.eqb c) 1 k s = true <-> exists b, s = String c b /\ k b = true.
Proof.
  cbn [exactly]. destruct s as [|x s]; [split; [done|by intros (? & ? & ?)]|].
  rewrite andb_true_iff, Ascii.eqb_eq. split.
  - intros [-> Hk]. eauto.
  - intros (b & [= -> ->] & Hk). done.
Qed.

Lemma at_end_spec (s : string) :
  at_end s = true <-> s = "" \/ s = String "010" "".
Proof.
  destruct s as [|c [|d s]]; cbn.
  - split; auto.
  - rewrite Ascii.eqb_eq. split.
    + intros ->. by right.
    + by intros [|[= ->]].
  - split; [done|]. by intros [|].
Qed.

Example email_validator_demo :
  email_validator "alice@example.com" = true /\
  email_validator "bad@com" = false /\
  email_validator "user+tag@sub.domain.org" = true.
Proof. vm_compute. repeat split. Qed.

(** X18. [email_validator] accepts exactly the strings made of a
    non-empty local part of letters, digits and [._%+-], an [@], a
    non-empty domain of letters, digits, dots and hyphens, a dot, at
    least two letters, and then nothing more or one final line feed. *)
Theorem email_validator_accepts_exactly (candidate : string) :
  email_validator candidate = true <->
  exists local_part domain tld ending : string,
    candidate = local_part ++ "@" ++ domain ++ "." ++ tld ++ ending /\
    (1 <= String.length local_part)%nat /\
    all_chars local_class local_part = true /\
    (1 <= String.length domain)%nat /\
    all_chars domain_class domain = true /\
    (2 <= String.length tld)%nat /\
    all_chars is_ascii_alpha tld = true /\
    (ending = "" \/ ending = String "010" "").
Proof.
  unfold email_validator, email_pattern. cbn [match_pieces].
  rewrite at_least_spec. split.
  - intros (lp & r1 & -> & Hlp & Hlen1 & H1).
    apply literal_spec in H1 as (r2 & -> & H2).
    apply at_least_spec in H2 as (dom & r3 & -> & Hdom & Hlen2 & H3).
    apply literal_spec in H3 as (r4 & -> & H4).
    apply at_least_spec in H4 as (tld & ending & -> & Htld & Hlen3 & H5).
    apply at_end_spec in H5.
    exists lp, dom, tld, ending. repeat split; done.
  - intros (lp & dom & tld & ending & -> & Hlen1 & Hlp & Hlen2 & Hdom & Hlen3 & Htld & Hend).
    exists lp, ("@" ++ dom ++ "." ++ tld ++ ending). repeat split; try done.
    apply literal_spec. exists (dom ++ "." ++ tld ++ ending). split; [done|].
    apply at_least_spec. exists dom, ("." ++ tld ++ ending). repeat split; try done.
    apply literal_spec. exists (tld ++ ending). split; [done|].
    apply at_least_spec. exists tld, ending. repeat split; try done.
    by apply at_end_spec.
Qed.

Lemma count_char_app (c : ascii) (a b : string) :
  count_char c (a ++ b) = (count_char c a + count_char c b)%nat.
Proof.
  induction a as [|x a IH]; [done|].
  rewrite append_cons. cbn [count_char]. rewrite IH. lia.
Qed.

Lemma count_char_outside (cls : ascii -> bool) (c : ascii) (a : string) :
  cls c = false -> all_chars cls a = true -> count_char c a = 0%nat.
Proof.
  intros Hc. induction a as [|x a IH]; [done|]. cbn.
  intros [Hx Ha]%andb_true_iff. rewrite (IH Ha).
  destruct (Ascii.eqb x c) eqn:E; [|done].
  apply Ascii.eqb_eq in E as ->. congruence.
Qed.

(** X19. A string [email_validator] accepts holds exactly one [@], and no
    whitespace other than the line feed it may end with. *)
Theorem email_validator_one_at (candidate : string) :
  email_validator candidate = true ->
  count_char "@" candidate = 1%nat /\
  exists address ending : string,
    candidate = address ++ ending /\
    all_chars (fun c => negb (isspace c)) address = true /\
    (ending = "" \/ ending = String "010" "").
Proof.
  intros (lp & dom & tld & ending & -> & _ & Hlp & _ & Hdom & _ & Htld & Hend)
    %email_validator_accepts_exactly.
  assert (forall c, local_class c = true -> negb (isspace c) = true) as Hl.
  { intros c. destruct c as [[] [] [] [] [] [] [] []]; vm_compute; congruence. }
  assert (forall c, domain_class c = true -> negb (isspace c) = true) as Hd.
  { intros c. destruct c as [[] [] [] [] [] [] [] []]; vm_compute; congruence. }
  assert (forall c, is_ascii_alpha c = true -> negb (isspace c) = true) as Ht.
  { intros c. destruct c as [[] [] [] [] [] [] [] []]; vm_compute; congruence. }
  assert (forall (p q : ascii -> bool) (a : string),
             (forall c, p c = true -> q c = true) ->
             all_chars p a = true -> all_chars q a = true) as Hmono.
  { intros p q a Hpq. induction a as [|x a IH]; [done|]. cbn.
    intros [Hx Ha]%andb_true_iff. by rewrite (Hpq x Hx), IH. }
  split.
  - rewrite !count_char_app.
    rewrite (count_char_outside local_class "@" lp eq_refl Hlp).
    rewrite (count_char_outside domain_class "@" dom eq_refl Hdom).
    rewrite (count_char_outside is_ascii_alpha "@" tld eq_refl Htld).
    destruct Hend as [-> | ->]; reflexivity.
  - exists (lp ++ "@" ++ dom ++ "." ++ tld), ending. split; [|split; [|done]].
    + by rewrite !append_assoc.
    + rewrite !all_chars_app.
      rewrite (Hmono _ _ lp Hl Hlp), (Hmono _ _ dom Hd Hdom), (Hmono _ _ tld Ht Htld).
      reflexivity.
Qed.

Lemma email_validator_one_at_witness :
  email_validator "user+tag@sub.domain.org" = true /\
  count_char "@" "user+tag@sub.domain.org" = 1%nat.
Proof.
  split; [reflexivity|].
  apply (email_validator_one_at "user+tag@sub.domain.org"). reflexivity.
Defined.

End EmailValidator.
